(** * Inferno: the simulated imaging back end and its Qt front end

    A shallow embedding of [DiskUtility] (drive enumeration and the
    timer-driven image write) and of [InfernoWindow] (the slots that guard
    the destructive operation), with the properties of the progress and
    completion notifications proved over every run of the event loop.

    The repository carries the program twice: the single translation unit
    [inferno_full_code.cpp] and the split sources ([DiskUtility.cpp],
    [InfernoWindow.cpp]).  The two differ in the timers that
    [startImageWrite] arms; both are embedded and every statement covers
    both. *)

From Stdlib Require Import ZArith Lia Ascii String.
From stdpp Require Import base list gmap strings sorting.

Local Open Scope string_scope.
Local Open Scope list_scope.
Local Open Scope stdpp_scope.

(** ** Qt value types *)

(** [QVariant], restricted to the payloads the program stores in one:
    check-box states in the options map and device paths as combo-box user
    data.  A default-constructed variant is invalid. *)
Inductive QVariant : Type :=
  | QVInvalid
  | QVBool (b : bool)
  | QVString (s : string).

(** [QVariant::toString()]: an invalid variant converts to the empty string. *)
Definition toString (v : QVariant) : string :=
  match v with
  | QVInvalid => EmptyString
  | QVBool true => "true"
  | QVBool false => "false"
  | QVString s => s
  end.

#[global] Instance QVariant_eq_dec : EqDecision QVariant.
Proof. solve_decision. Defined.

(** ** DiskUtility: data *)

Record DriveInfo : Type := mkDriveInfo {
  devicePath : string;
  driveLetter : string;
  model : string;
  size : Z;
  isRemovable : bool
}.

#[global] Instance DriveInfo_eq_dec : EqDecision DriveInfo.
Proof. solve_decision. Defined.

(** The two signals of [DiskUtility]. *)
Inductive Signal : Type :=
  | progressUpdated (percentage : Z) (message : string)
  | writeCompleted (success : bool) (errorMessage : string).

#[global] Instance Signal_eq_dec : EqDecision Signal.
Proof. solve_decision. Defined.

(** A pending [QTimer::singleShot].  The functor of every timer of the
    program only emits signals, so [callback] lists them in emission order.
    [owner] is a ghost label: the ordinal of the [startImageWrite] call
    whose lambda this is (the signals themselves carry no session id). *)
Record Timer : Type := mkTimer {
  deadline : Z;
  owner : nat;
  callback : list Signal
}.

(** What [qDebug()] received. *)
Inductive DebugLine : Type :=
  | DbgEnumerated
  | DbgStarting (imagePath drivePath : string)
  | DbgOptions (options : gmap string QVariant).

(** The machine the process runs on: whether the device layer answers,
    the block devices attached and the size of every readable file.  The
    program is a simulation and never consults it; it is part of the state
    so that statements can say so. *)
Record Platform : Type := mkPlatform {
  layerAvailable : bool;
  blockDevices : list DriveInfo;
  files : gmap string Z
}.

(** The running application as far as [DiskUtility] is concerned: the
    clock of the event loop in milliseconds, the timer queue of the event
    dispatcher, the signals emitted so far (tagged with the emitting
    session), the number of [startImageWrite] calls made and the debug
    output. *)
Record App : Type := mkApp {
  platform : Platform;
  now : Z;
  timers : list Timer;
  emitted : list (nat * Signal);
  sessions : nat;
  debugLog : list DebugLine
}.

Definition set_platform (p : Platform) (a : App) : App :=
  mkApp p (now a) (timers a) (emitted a) (sessions a) (debugLog a).
Definition set_now (t : Z) (a : App) : App :=
  mkApp (platform a) t (timers a) (emitted a) (sessions a) (debugLog a).
Definition set_timers (q : list Timer) (a : App) : App :=
  mkApp (platform a) (now a) q (emitted a) (sessions a) (debugLog a).
Definition set_emitted (e : list (nat * Signal)) (a : App) : App :=
  mkApp (platform a) (now a) (timers a) e (sessions a) (debugLog a).
Definition set_sessions (n : nat) (a : App) : App :=
  mkApp (platform a) (now a) (timers a) (emitted a) n (debugLog a).

Definition qDebug (d : DebugLine) (a : App) : App :=
  mkApp (platform a) (now a) (timers a) (emitted a) (sessions a)
        (debugLog a ++ [d]).

(** A freshly started process: nothing armed, nothing emitted. *)
Definition boot (p : Platform) (t0 : Z) : App := mkApp p t0 [] [] 0 [].

(** ** The event dispatcher *)

(** The dispatcher keeps its timers ordered by expiry; a new timer goes
    behind every timer that expires no later than it does. *)
Fixpoint timerInsert (t : Timer) (q : list Timer) : list Timer :=
  match q with
  | [] => [t]
  | u :: q' =>
      if (deadline t <? deadline u)%Z then t :: q else u :: timerInsert t q'
  end.

(** [QTimer::singleShot(msec, functor)]. *)
Definition singleShot (msec : Z) (s : nat) (cb : list Signal) (a : App) : App :=
  set_timers (timerInsert (mkTimer (now a + msec) s cb) (timers a)) a.

(** Running a functor: each [emit] is delivered at once, in order. *)
Definition fire (t : Timer) (a : App) : App :=
  set_emitted (emitted a ++ ((owner t,.) <$> callback t))
              (set_now (Z.max (now a) (deadline t)) a).

(** One turn of the event loop: the timer that expires first runs. *)
Definition processNextTimer (a : App) : App :=
  match timers a with
  | [] => a
  | t :: q => fire t (set_timers q a)
  end.

(** The event loop left alone until no timer is pending.  No functor arms
    a timer, so one turn per pending timer is enough. *)
Definition runEventLoop (a : App) : App :=
  Nat.iter (length (timers a)) processNextTimer a.

(** ** DiskUtility: operations *)

Definition drive1 : DriveInfo :=
  mkDriveInfo "\\.\PhysicalDrive1" "E:" "SanDisk Cruzer Blade (16 GB)"
              16000000000 true.

Definition drive2 : DriveInfo :=
  mkDriveInfo "\\.\PhysicalDrive2" "F:" "Kingston DataTraveler (32 GB)"
              32000000000 true.

(** [DiskUtility::enumerateRemovableDrives]: appends the two dummy drives
    to an empty list, writes a debug line and returns the list. *)
Definition enumerateRemovableDrives (a : App) : list DriveInfo * App :=
  let drives := [] in
  let drives := drives ++ [drive1] in
  let drives := drives ++ [drive2] in
  (drives, qDebug DbgEnumerated a).

(** The program exists in two builds. *)
Inductive Build : Type := SingleFile | SplitSources.

(** [DiskUtility::startImageWrite] of [inferno_full_code.cpp]. *)
Definition startImageWrite_single (imagePath drivePath : string)
    (options : gmap string QVariant) (a : App) : bool * App :=
  let s := sessions a in
  let a := qDebug (DbgStarting imagePath drivePath) a in
  let a := qDebug (DbgOptions options) a in
  let a := singleShot 1000 s
    [progressUpdated 25 "Formatting drive and preparing partitions (Inferno Custom Partitioning)..."] a in
  let a := singleShot 3000 s
    [progressUpdated 75 "Writing image data (Superior Asynchronous I/O in progress)..."] a in
  let a := singleShot 5000 s
    [progressUpdated 90 "Verifying image integrity (SHA-256/Digital Signatures)..."] a in
  let a := singleShot 6000 s
    [progressUpdated 100 "Verification and finalization complete. Bootable USB Ready.";
     writeCompleted true EmptyString] a in
  (true, set_sessions (S s) a).

(** [DiskUtility::startImageWrite] of the split [DiskUtility.cpp]. *)
Definition startImageWrite_split (imagePath drivePath : string)
    (options : gmap string QVariant) (a : App) : bool * App :=
  let s := sessions a in
  let a := qDebug (DbgStarting imagePath drivePath) a in
  let a := qDebug (DbgOptions options) a in
  let a := singleShot 1000 s
    [progressUpdated 25 "Formatting drive and preparing partitions..."] a in
  let a := singleShot 3000 s
    [progressUpdated 75 "Writing image data (Superior Asynchronous I/O in progress)..."] a in
  let a := singleShot 5000 s
    [progressUpdated 100 "Verification and finalization complete.";
     writeCompleted true EmptyString] a in
  (true, set_sessions (S s) a).

Definition startImageWrite (b : Build) :
    string → string → gmap string QVariant → App → bool * App :=
  match b with
  | SingleFile => startImageWrite_single
  | SplitSources => startImageWrite_split
  end.

(** ** Runs of the application *)

(** What can happen to the process between two observations: a caller
    uses one of the two public members of [DiskUtility], the event loop
    runs the next timer, time passes while no timer runs, or the machine
    changes under the process. *)
Inductive Call : Type :=
  | CallEnumerate
  | CallStartImageWrite (imagePath drivePath : string)
                        (options : gmap string QVariant)
  | TimerFires
  | Wait (ms : Z)
  | PlatformChanges (p : Platform).

Definition perform (b : Build) (a : App) (c : Call) : App :=
  match c with
  | CallEnumerate => (enumerateRemovableDrives a).2
  | CallStartImageWrite i d o => (startImageWrite b i d o a).2
  | TimerFires => processNextTimer a
  | Wait ms => set_now (now a + Z.max 0 ms) a
  | PlatformChanges p => set_platform p a
  end.

Definition execute (b : Build) (calls : list Call) (a : App) : App :=
  foldl (perform b) a calls.

(** ** Observations on a run *)

(** The events of a timer queue in the order in which they will be
    emitted. *)
Definition pendingEvents (q : list Timer) : list (nat * Signal) :=
  q ≫= (λ t, (owner t,.) <$> callback t).

(** Everything emitted so far followed by everything still armed. *)
Definition eventual (a : App) : list (nat * Signal) :=
  emitted a ++ pendingEvents (timers a).

Definition ofSession (s : nat) (es : list (nat * Signal)) : list Signal :=
  (filter (λ e, e.1 = s) es).*2.

(** The notifications session [s] has received so far, in order. *)
Definition sessionSignals (s : nat) (a : App) : list Signal :=
  ofSession s (emitted a).

Definition percentageOf (sig : Signal) : option Z :=
  match sig with
  | progressUpdated p _ => Some p
  | writeCompleted _ _ => None
  end.

Definition isTerminal (sig : Signal) : bool :=
  match sig with
  | progressUpdated _ _ => false
  | writeCompleted _ _ => true
  end.

(** The percentages reported to session [s] so far, in order. *)
Definition sessionPercentages (s : nat) (a : App) : list Z :=
  omap percentageOf (sessionSignals s a).

(** The whole notification sequence of one session, per build. *)
Definition script (b : Build) : list Signal :=
  match b with
  | SingleFile =>
      [progressUpdated 25 "Formatting drive and preparing partitions (Inferno Custom Partitioning)...";
       progressUpdated 75 "Writing image data (Superior Asynchronous I/O in progress)...";
       progressUpdated 90 "Verifying image integrity (SHA-256/Digital Signatures)...";
       progressUpdated 100 "Verification and finalization complete. Bootable USB Ready.";
       writeCompleted true EmptyString]
  | SplitSources =>
      [progressUpdated 25 "Formatting drive and preparing partitions...";
       progressUpdated 75 "Writing image data (Superior Asynchronous I/O in progress)...";
       progressUpdated 100 "Verification and finalization complete.";
       writeCompleted true EmptyString]
  end.

(** The timers one call arms, as (delay, signals of the functor), in the
    order of the [singleShot] calls. *)
Definition stages (b : Build) : list (Z * list Signal) :=
  match b with
  | SingleFile =>
      [(1000%Z, [progressUpdated 25 "Formatting drive and preparing partitions (Inferno Custom Partitioning)..."]);
       (3000%Z, [progressUpdated 75 "Writing image data (Superior Asynchronous I/O in progress)..."]);
       (5000%Z, [progressUpdated 90 "Verifying image integrity (SHA-256/Digital Signatures)..."]);
       (6000%Z, [progressUpdated 100 "Verification and finalization complete. Bootable USB Ready.";
               writeCompleted true EmptyString])]
  | SplitSources =>
      [(1000%Z, [progressUpdated 25 "Formatting drive and preparing partitions..."]);
       (3000%Z, [progressUpdated 75 "Writing image data (Superior Asynchronous I/O in progress)..."]);
       (5000%Z, [progressUpdated 100 "Verification and finalization complete.";
               writeCompleted true EmptyString])]
  end.

(** Arming a list of timers for session [s], first to last. *)
Definition arm (s : nat) (sts : list (Z * list Signal)) (a : App) : App :=
  foldl (λ a st, singleShot st.1 s st.2 a) a sts.

Definition timersOf (s : nat) (q : list Timer) : list Timer :=
  filter (λ t, owner t = s) q.

Definition byDeadline (t u : Timer) : Prop := (deadline t ≤ deadline u)%Z.

(** ** InfernoWindow: widgets *)

(** Text shown by a widget: a literal, or the label the drive list builds
    from a drive ([letter (model) - size GB]; the rendering of the size is
    floating-point formatting and is kept symbolic). *)
Inductive ItemText : Type :=
  | Literal (s : string)
  | DriveLabel (letter model : string) (bytes : Z).

Record ComboItem : Type := mkItem {
  itemText : ItemText;
  itemData : QVariant
}.

(** A non-editable [QComboBox]; [currentIndex] is -1 when there is no
    current item. *)
Record QComboBox : Type := mkCombo {
  items : list ComboItem;
  currentIndex : Z;
  comboEnabled : bool
}.

Definition comboClear (c : QComboBox) : QComboBox :=
  mkCombo [] (-1) (comboEnabled c).

(** [addItem]: the first item put into an empty box becomes current. *)
Definition addItem (text : ItemText) (data : QVariant) (c : QComboBox) : QComboBox :=
  mkCombo (items c ++ [mkItem text data])
          (match items c with [] => 0 | _ => currentIndex c end)
          (comboEnabled c).

Definition comboSetEnabled (e : bool) (c : QComboBox) : QComboBox :=
  mkCombo (items c) (currentIndex c) e.

Definition currentItem (c : QComboBox) : option ComboItem :=
  if (currentIndex c <? 0)%Z then None
  else items c !! Z.to_nat (currentIndex c).

Definition currentData (c : QComboBox) : QVariant :=
  match currentItem c with Some it => itemData it | None => QVInvalid end.

Definition currentText (c : QComboBox) : ItemText :=
  match currentItem c with
  | Some it => itemText it
  | None => Literal EmptyString
  end.

(** The user picks an entry of the drop-down list. *)
Definition comboActivate (i : nat) (c : QComboBox) : QComboBox :=
  if comboEnabled c && bool_decide (i < length (items c))
  then mkCombo (items c) (Z.of_nat i) (comboEnabled c)
  else c.

(** The answer of a message box that offers Yes and No; closing the box
    counts as its escape button, which is No. *)
Inductive StandardButton : Type := Yes | No.

Inductive Dialog : Type :=
  | MsgWarning (title text : string)
  | MsgCritical (title text : string)
  | MsgInformation (title text : string)
  | MsgConfirmDestruction (drive : ItemText) (imageFile : string).

Record InfernoWindow : Type := mkWindow {
  driveComboBox : QComboBox;
  isoPathLabel : string;
  advancedGroupVisible : bool;
  persistenceCheckBox : bool;
  multiBootCheckBox : bool;
  win11BypassCheckBox : bool;
  startButton : bool;
  progressBar : Z;
  statusLabel : string;
  dialogs : list Dialog;
  diskUtility : App
}.

Definition set_driveComboBox (c : QComboBox) (w : InfernoWindow) :=
  mkWindow c (isoPathLabel w) (advancedGroupVisible w) (persistenceCheckBox w)
    (multiBootCheckBox w) (win11BypassCheckBox w) (startButton w)
    (progressBar w) (statusLabel w) (dialogs w) (diskUtility w).
Definition set_isoPathLabel (t : string) (w : InfernoWindow) :=
  mkWindow (driveComboBox w) t (advancedGroupVisible w) (persistenceCheckBox w)
    (multiBootCheckBox w) (win11BypassCheckBox w) (startButton w)
    (progressBar w) (statusLabel w) (dialogs w) (diskUtility w).
Definition set_advancedGroupVisible (v : bool) (w : InfernoWindow) :=
  mkWindow (driveComboBox w) (isoPathLabel w) v (persistenceCheckBox w)
    (multiBootCheckBox w) (win11BypassCheckBox w) (startButton w)
    (progressBar w) (statusLabel w) (dialogs w) (diskUtility w).
Definition set_checkBoxes (pe mb wb : bool) (w : InfernoWindow) :=
  mkWindow (driveComboBox w) (isoPathLabel w) (advancedGroupVisible w) pe mb wb
    (startButton w) (progressBar w) (statusLabel w) (dialogs w) (diskUtility w).
Definition set_startButton (e : bool) (w : InfernoWindow) :=
  mkWindow (driveComboBox w) (isoPathLabel w) (advancedGroupVisible w)
    (persistenceCheckBox w) (multiBootCheckBox w) (win11BypassCheckBox w) e
    (progressBar w) (statusLabel w) (dialogs w) (diskUtility w).
Definition set_statusLabel (t : string) (w : InfernoWindow) :=
  mkWindow (driveComboBox w) (isoPathLabel w) (advancedGroupVisible w)
    (persistenceCheckBox w) (multiBootCheckBox w) (win11BypassCheckBox w)
    (startButton w) (progressBar w) t (dialogs w) (diskUtility w).
Definition set_diskUtility (a : App) (w : InfernoWindow) :=
  mkWindow (driveComboBox w) (isoPathLabel w) (advancedGroupVisible w)
    (persistenceCheckBox w) (multiBootCheckBox w) (win11BypassCheckBox w)
    (startButton w) (progressBar w) (statusLabel w) (dialogs w) a.

(** [QProgressBar::setValue]: a value outside 0..100 is ignored. *)
Definition progressBar_setValue (v : Z) (w : InfernoWindow) :=
  mkWindow (driveComboBox w) (isoPathLabel w) (advancedGroupVisible w)
    (persistenceCheckBox w) (multiBootCheckBox w) (win11BypassCheckBox w)
    (startButton w)
    (if (0 <=? v)%Z && (v <=? 100)%Z then v else progressBar w)
    (statusLabel w) (dialogs w) (diskUtility w).

(** A modal message box is shown (and dismissed). *)
Definition showDialog (d : Dialog) (w : InfernoWindow) :=
  mkWindow (driveComboBox w) (isoPathLabel w) (advancedGroupVisible w)
    (persistenceCheckBox w) (multiBootCheckBox w) (win11BypassCheckBox w)
    (startButton w) (progressBar w) (statusLabel w) (dialogs w ++ [d])
    (diskUtility w).

(** [QFileInfo(path).fileName()]: what follows the last slash. *)
Fixpoint fileNameFrom (acc path : string) : string :=
  match path with
  | EmptyString => acc
  | String c rest =>
      if Ascii.eqb c "/"%char then fileNameFrom EmptyString rest
      else fileNameFrom (acc +:+ String c EmptyString) rest
  end.

Definition fileName (path : string) : string := fileNameFrom EmptyString path.

(** ** InfernoWindow: slots *)

Definition noImageSelected : string := "No image selected.".

(** [setupUI] up to the point where the two builds differ: the widgets in
    their initial state, the back end just constructed. *)
Definition setupWidgets (a : App) : InfernoWindow :=
  mkWindow (mkCombo [] (-1) true) noImageSelected false false false false
           false 0 "Ready." [] a.

(** [InfernoWindow::updateDriveList]. *)
Definition updateDriveList (w : InfernoWindow) : InfernoWindow :=
  let c := comboClear (driveComboBox w) in
  let c := addItem (Literal "Select a USB Drive...") QVInvalid c in
  let '(drives, a) := enumerateRemovableDrives (diskUtility w) in
  let w := set_diskUtility a w in
  match drives with
  | [] =>
      let c := addItem (Literal "No removable drives detected.") QVInvalid c in
      set_driveComboBox (comboSetEnabled false c) w
  | _ =>
      let c := comboSetEnabled true c in
      let c := foldl (λ c drive,
                 addItem (DriveLabel (driveLetter drive) (model drive) (size drive))
                         (QVString (devicePath drive)) c) c drives in
      set_driveComboBox c w
  end.

(** The constructor.  In the single file it runs [setupUI] and then
    [updateDriveList]; in the split sources [setupUI] itself adds the
    prompt item and calls [updateDriveList]. *)
Definition newInfernoWindow (b : Build) (p : Platform) (t0 : Z) : InfernoWindow :=
  let w := setupWidgets (boot p t0) in
  match b with
  | SingleFile => updateDriveList w
  | SplitSources =>
      updateDriveList
        (set_driveComboBox
           (addItem (Literal "Select a USB Drive...") QVInvalid (driveComboBox w)) w)
  end.

(** [InfernoWindow::selectDiskImage]; [chosen] is what the file dialog
    returned, empty when it was dismissed. *)
Definition selectDiskImage (chosen : string) (w : InfernoWindow) : InfernoWindow :=
  if bool_decide (chosen = EmptyString) then w
  else
    let w := set_isoPathLabel chosen w in
    let w := set_startButton true w in
    set_statusLabel ("Image selected: " +:+ fileName chosen) w.

(** The options map [startBurningProcess] fills from the check boxes. *)
Definition gatherOptions (w : InfernoWindow) : gmap string QVariant :=
  let options := ∅ in
  let options := <["persistence" := QVBool (persistenceCheckBox w)]> options in
  let options := <["multiBoot" := QVBool (multiBootCheckBox w)]> options in
  let options := <["win11Bypass" := QVBool (win11BypassCheckBox w)]> options in
  options.

(** [InfernoWindow::startBurningProcess]; [reply] is the answer to the
    confirmation question, consulted only if the question is asked.  The
    question is modal and the slot reads nothing of the back end before
    asking, so a timer that expires while the box is open is taken to run
    before or after the slot. *)
Definition startBurningProcess (b : Build) (reply : StandardButton)
    (w : InfernoWindow) : InfernoWindow :=
  if (currentIndex (driveComboBox w) =? 0)%Z then
    showDialog (MsgWarning "Inferno Error" "Please select a target USB drive.") w
  else
    let drivePath := toString (currentData (driveComboBox w)) in
    let imagePath := isoPathLabel w in
    if bool_decide (imagePath = noImageSelected) then
      showDialog (MsgWarning "Inferno Error" "Please select a disk image (ISO/IMG).") w
    else
      let options := gatherOptions w in
      let w := showDialog (MsgConfirmDestruction (currentText (driveComboBox w))
                                                 (fileName imagePath)) w in
      match reply with
      | No => set_statusLabel "Operation cancelled by user." w
      | Yes =>
          let '(ok, a) := startImageWrite b imagePath drivePath options (diskUtility w) in
          let w := set_diskUtility a w in
          if ok then
            let w := set_startButton false w in
            let w := set_statusLabel "Burning process initiated..." w in
            progressBar_setValue 0 w
          else
            showDialog (MsgCritical "Inferno Error"
                          "Failed to start the image writing process.") w
      end.

(** [InfernoWindow::toggleAdvancedOptions]. *)
Definition toggleAdvancedOptions (checked : bool) (w : InfernoWindow) : InfernoWindow :=
  if checked then set_statusLabel "Advanced Inferno features enabled." w
  else set_statusLabel "Advanced Inferno features disabled." w.

(** [InfernoWindow::handleProgressUpdate]. *)
Definition handleProgressUpdate (percentage : Z) (message : string)
    (w : InfernoWindow) : InfernoWindow :=
  set_statusLabel message (progressBar_setValue percentage w).

(** [InfernoWindow::handleWriteCompletion]. *)
Definition handleWriteCompletion (success : bool) (errorMessage : string)
    (w : InfernoWindow) : InfernoWindow :=
  let w := set_startButton true w in
  let w := progressBar_setValue (if success then 100 else progressBar w) w in
  if success then
    let w := set_statusLabel "SUCCESS: Bootable USB created successfully!" w in
    showDialog (MsgInformation "Inferno Success"
                  "The bootable USB drive has been created successfully!") w
  else
    let w := set_statusLabel ("ERROR: " +:+ errorMessage) w in
    showDialog (MsgCritical "Inferno Error"
                  ("The process failed: " +:+ errorMessage)) w.

(** The two [connect] calls on the signals of [DiskUtility]. *)
Definition deliver (w : InfernoWindow) (sig : Signal) : InfernoWindow :=
  match sig with
  | progressUpdated pc msg => handleProgressUpdate pc msg w
  | writeCompleted ok err => handleWriteCompletion ok err w
  end.

(** One turn of the event loop seen from the window: the timer runs and
    each signal it emits reaches its slot. *)
Definition windowTurn (w : InfernoWindow) : InfernoWindow :=
  match timers (diskUtility w) with
  | [] => w
  | t :: _ =>
      foldl deliver (set_diskUtility (processNextTimer (diskUtility w)) w)
            (callback t)
  end.

(** What the user and the environment can do to the window.  A disabled
    or hidden widget does not react. *)
Inductive UserEvent : Type :=
  | ClickSelectImage (chosen : string)
  | ClickStart (reply : StandardButton)
  | ToggleAdvanced (checked : bool)
  | SetCheckBoxes (persistence multiBoot win11Bypass : bool)
  | ActivateDrive (index : nat)
  | EventLoopTurn
  | TimePasses (ms : Z)
  | MachineChanges (p : Platform).

Definition react (b : Build) (w : InfernoWindow) (e : UserEvent) : InfernoWindow :=
  match e with
  | ClickSelectImage chosen => selectDiskImage chosen w
  | ClickStart reply =>
      if startButton w then startBurningProcess b reply w else w
  | ToggleAdvanced checked =>
      toggleAdvancedOptions checked (set_advancedGroupVisible checked w)
  | SetCheckBoxes pe mb wb =>
      if advancedGroupVisible w then set_checkBoxes pe mb wb w else w
  | ActivateDrive i =>
      set_driveComboBox (comboActivate i (driveComboBox w)) w
  | EventLoopTurn => windowTurn w
  | TimePasses ms => set_diskUtility (perform b (diskUtility w) (Wait ms)) w
  | MachineChanges p =>
      set_diskUtility (perform b (diskUtility w) (PlatformChanges p)) w
  end.

Definition windowRun (b : Build) (events : list UserEvent) (p : Platform) (t0 : Z)
    : InfernoWindow :=
  foldl (react b) (newInfernoWindow b p t0) events.

(** ** Further observations *)

(** Two calls are of the same shape when they differ at most in the
    arguments of [startImageWrite] or in the machine put under the
    process. *)
Definition sameShape (c1 c2 : Call) : Prop :=
  match c1, c2 with
  | CallEnumerate, CallEnumerate => True
  | CallStartImageWrite _ _ _, CallStartImageWrite _ _ _ => True
  | TimerFires, TimerFires => True
  | Wait ms1, Wait ms2 => ms1 = ms2
  | PlatformChanges _, PlatformChanges _ => True
  | _, _ => False
  end.

(** What a receiver of the signals can see of the process: the clock, the
    armed timers, the signals emitted and the number of sessions; not the
    debug output, not the machine. *)
Definition visible (a : App) : Z * list Timer * list (nat * Signal) * nat :=
  (now a, timers a, emitted a, sessions a).

(** The functor of the last timer a call arms, and its delay. *)
Definition finalCallback (b : Build) : list Signal :=
  match b with
  | SingleFile =>
      [progressUpdated 100 "Verification and finalization complete. Bootable USB Ready.";
       writeCompleted true EmptyString]
  | SplitSources =>
      [progressUpdated 100 "Verification and finalization complete.";
       writeCompleted true EmptyString]
  end.

Definition finalDelay (b : Build) : Z :=
  match b with SingleFile => 6000 | SplitSources => 5000 end.

(** The event loop of the window left alone until no timer is pending. *)
Definition windowDrain (w : InfernoWindow) : InfernoWindow :=
  Nat.iter (length (timers (diskUtility w))) windowTurn w.

Definition isCritical (d : Dialog) : bool :=
  match d with MsgCritical _ _ => true | _ => false end.

Definition selectImageWarning : Dialog :=
  MsgWarning "Inferno Error" "Please select a disk image (ISO/IMG).".

Definition selectDriveWarning : Dialog :=
  MsgWarning "Inferno Error" "Please select a target USB drive.".

Definition successDialog : Dialog :=
  MsgInformation "Inferno Success"
    "The bootable USB drive has been created successfully!".

(** ** The timer queue *)

Section TimerQueue.
Implicit Types (t u : Timer) (q : list Timer) (s : nat).

Lemma timerInsert_sorted t q :
  StronglySorted byDeadline q → StronglySorted byDeadline (timerInsert t q).
Proof.
  induction 1 as [|u q Hq IH Hu]; simpl.
  - repeat constructor.
  - destruct (Z.ltb_spec (deadline t) (deadline u)) as [Hlt|Hge].
    + constructor; [by constructor|].
      constructor; [unfold byDeadline; lia|].
      eapply Forall_impl; [exact Hu|]. unfold byDeadline. intros; simpl in *; lia.
    + constructor; [exact IH|].
      clear IH Hq. induction q as [|v q IHq]; simpl.
      * by repeat constructor.
      * apply Forall_cons in Hu as [Hv Hu].
        destruct (deadline t <? deadline v)%Z; repeat constructor; auto.
Qed.

Lemma timersOf_none s q :
  Forall (λ u, owner u ≠ s) q → timersOf s q = [].
Proof.
  unfold timersOf. induction 1 as [|u q Hu _ IH]; [done|].
  by rewrite filter_cons_False.
Qed.

Lemma timerInsert_other s t q :
  owner t ≠ s → timersOf s (timerInsert t q) = timersOf s q.
Proof.
  intros Hne. unfold timersOf. induction q as [|u q IH]; simpl.
  - by rewrite filter_cons_False.
  - destruct (deadline t <? deadline u)%Z.
    + by rewrite (filter_cons_False _ t).
    + rewrite !(filter_cons _ u), IH. done.
Qed.

(** A timer that expires no earlier than the timers its session already
    has armed runs after all of them. *)
Lemma timerInsert_own s t q :
  owner t = s →
  StronglySorted byDeadline q →
  Forall (λ u, owner u = s → (deadline u ≤ deadline t)%Z) q →
  timersOf s (timerInsert t q) = timersOf s q ++ [t].
Proof.
  intros Hs Hsorted. unfold timersOf.
  induction Hsorted as [|u q Hq IH Hu]; intros Hle; simpl.
  - by rewrite filter_cons_True.
  - apply Forall_cons in Hle as [Hle_u Hle_q].
    destruct (Z.ltb_spec (deadline t) (deadline u)) as [Hlt|Hge].
    + rewrite (filter_cons_True _ t) by done.
      fold (timersOf s (u :: q)). rewrite timersOf_none; [done|].
      constructor.
      * intros Hu'. specialize (Hle_u Hu'). lia.
      * rewrite Forall_forall in Hu, Hle_q |- *. intros v Hv Hv'.
        specialize (Hu v Hv). specialize (Hle_q v Hv Hv').
        unfold byDeadline in Hu. lia.
    + rewrite !(filter_cons _ u), IH by done. by case_decide.
Qed.

Lemma timerInsert_elem t u q : u ∈ timerInsert t q ↔ u = t ∨ u ∈ q.
Proof.
  induction q as [|v q IH]; simpl.
  - rewrite list_elem_of_singleton, elem_of_nil. tauto.
  - destruct (deadline t <? deadline v)%Z;
      rewrite !elem_of_cons, ?IH; tauto.
Qed.

Lemma ofSession_app s (es1 es2 : list (nat * Signal)) :
  ofSession s (es1 ++ es2) = ofSession s es1 ++ ofSession s es2.
Proof. unfold ofSession. by rewrite filter_app, fmap_app. Qed.

Lemma ofSession_timer_own s t :
  owner t = s → ofSession s ((owner t,.) <$> callback t) = callback t.
Proof.
  intros Hs. unfold ofSession. induction (callback t) as [|x l IH]; [done|].
  rewrite fmap_cons, filter_cons_True by done. simpl. by f_equal.
Qed.

Lemma ofSession_timer_other s t :
  owner t ≠ s → ofSession s ((owner t,.) <$> callback t) = [].
Proof.
  intros Hs. unfold ofSession. induction (callback t) as [|x l IH]; [done|].
  by rewrite fmap_cons, filter_cons_False.
Qed.

(** The pending events of a session are those of its own timers. *)
Lemma ofSession_pending s q :
  ofSession s (pendingEvents q) = timersOf s q ≫= callback.
Proof.
  unfold pendingEvents, timersOf. induction q as [|t q IH]; [done|].
  rewrite bind_cons, ofSession_app, IH, filter_cons.
  case_decide.
  - by rewrite ofSession_timer_own, bind_cons.
  - by rewrite ofSession_timer_other.
Qed.
End TimerQueue.

(** ** Arming the timers of one session *)

Section Arm.
Implicit Types (a : App) (s : nat) (sts : list (Z * list Signal)).

Lemma singleShot_fields ms s cb a :
  platform (singleShot ms s cb a) = platform a ∧
  now (singleShot ms s cb a) = now a ∧
  emitted (singleShot ms s cb a) = emitted a ∧
  sessions (singleShot ms s cb a) = sessions a ∧
  debugLog (singleShot ms s cb a) = debugLog a.
Proof. done. Qed.

Lemma arm_fields s sts a :
  platform (arm s sts a) = platform a ∧
  now (arm s sts a) = now a ∧
  emitted (arm s sts a) = emitted a ∧
  sessions (arm s sts a) = sessions a ∧
  debugLog (arm s sts a) = debugLog a.
Proof.
  revert a. induction sts as [|st sts IH]; intros a; [done|].
  unfold arm in *. simpl. destruct (IH (singleShot st.1 s st.2 a)) as (-> & -> & -> & -> & ->).
  done.
Qed.

Lemma arm_sorted s sts a :
  StronglySorted byDeadline (timers a) →
  StronglySorted byDeadline (timers (arm s sts a)).
Proof.
  revert a. induction sts as [|st sts IH]; intros a Ha; [done|].
  apply IH. simpl. by apply timerInsert_sorted.
Qed.

Lemma arm_owner s sts a (P : nat → Prop) :
  P s → Forall (λ t, P (owner t)) (timers a) →
  Forall (λ t, P (owner t)) (timers (arm s sts a)).
Proof.
  intros Hs. revert a. induction sts as [|st sts IH]; intros a Ha; [done|].
  apply IH. simpl. rewrite Forall_forall in Ha |- *.
  intros u [->|Hu]%timerInsert_elem; [done|auto].
Qed.

Lemma arm_other s s' sts a :
  s ≠ s' → timersOf s' (timers (arm s sts a)) = timersOf s' (timers a).
Proof.
  intros Hne. revert a. induction sts as [|st sts IH]; intros a; [done|].
  unfold arm in *. simpl. rewrite IH. simpl. by apply timerInsert_other.
Qed.

(** With delays that do not decrease from one [singleShot] to the next,
    the timers of the session sit in the queue in the order in which they
    were armed, behind whatever the session had armed before. *)
Lemma arm_own s sts a :
  StronglySorted Z.le sts.*1 →
  StronglySorted byDeadline (timers a) →
  Forall (λ u, owner u = s →
               Forall (λ d, deadline u ≤ now a + d)%Z sts.*1) (timers a) →
  timersOf s (timers (arm s sts a))
  = timersOf s (timers a) ++ ((λ st, mkTimer (now a + st.1) s st.2) <$> sts).
Proof.
  revert a. induction sts as [|[d cb] sts IH]; intros a Hsts Hq Hold.
  - simpl. by rewrite app_nil_r.
  - rewrite fmap_cons in Hsts. apply StronglySorted_inv in Hsts as [Hsts Hd].
    unfold arm in *. simpl foldl.
    rewrite IH; clear IH; simpl.
    + rewrite timerInsert_own; [by rewrite <- app_assoc|done|done|].
      eapply Forall_impl; [exact Hold|]. simpl. intros u Hu Hs.
      specialize (Hu Hs). by apply Forall_cons in Hu as [? _].
    + done.
    + by apply timerInsert_sorted.
    + rewrite Forall_forall in Hold |- *.
      intros u [->|Hu]%timerInsert_elem Hs.
      * simpl. eapply Forall_impl; [exact Hd|]. simpl. intros; lia.
      * specialize (Hold u Hu Hs). by apply Forall_cons in Hold as [_ ?].
Qed.

Lemma stages_sorted b : StronglySorted Z.le (stages b).*1.
Proof.
  destruct b; simpl; repeat (constructor; [|repeat constructor; lia]);
    constructor.
Qed.

Lemma stages_script b : (stages b) ≫= snd = script b.
Proof. by destruct b. Qed.

(** [startImageWrite] is: two debug lines, the timers of [stages] armed
    for a new session, [true]. *)
Lemma startImageWrite_arm b i d o a :
  startImageWrite b i d o a
  = (true, set_sessions (S (sessions a))
             (arm (sessions a) (stages b)
                (qDebug (DbgOptions o) (qDebug (DbgStarting i d) a)))).
Proof. by destruct b. Qed.
End Arm.

(** ** The invariant of every run *)

(** The queue is ordered by expiry, every timer and every emitted signal
    belongs to a session that was started, and for every started session
    what was emitted followed by what is still armed is the script. *)
Record consistent (b : Build) (a : App) : Prop := mkConsistent {
  cons_sorted : StronglySorted byDeadline (timers a);
  cons_timers : Forall (λ t, owner t < sessions a) (timers a);
  cons_emitted : Forall (λ e, e.1 < sessions a) (emitted a);
  cons_script : ∀ s, s < sessions a → ofSession s (eventual a) = script b
}.

Section Invariant.
Implicit Types (a : App) (s : nat) (b : Build).

Lemma ofSession_none s (es : list (nat * Signal)) :
  Forall (λ e, e.1 ≠ s) es → ofSession s es = [].
Proof.
  unfold ofSession. induction 1 as [|e es He _ IH]; [done|].
  by rewrite filter_cons_False.
Qed.

Lemma ofSession_eventual s a :
  ofSession s (eventual a)
  = sessionSignals s a ++ (timersOf s (timers a) ≫= callback).
Proof. unfold eventual. by rewrite ofSession_app, ofSession_pending. Qed.

Lemma consistent_boot b p t0 : consistent b (boot p t0).
Proof. split; simpl; try constructor. intros s Hs. lia. Qed.

(** A turn of the event loop moves the events of the first timer from
    armed to emitted and changes nothing else. *)
Lemma eventual_processNextTimer a :
  eventual (processNextTimer a) = eventual a.
Proof.
  unfold processNextTimer, eventual, pendingEvents.
  destruct (timers a) as [|t q] eqn:Hq; [by rewrite Hq|].
  simpl. by rewrite app_assoc.
Qed.

Lemma sessions_processNextTimer a :
  sessions (processNextTimer a) = sessions a.
Proof. unfold processNextTimer. by destruct (timers a). Qed.

Lemma consistent_processNextTimer b a :
  consistent b a → consistent b (processNextTimer a).
Proof.
  intros [Hq Ht He Hs].
  split; rewrite ?sessions_processNextTimer, ?eventual_processNextTimer;
    [| | |done]; unfold processNextTimer;
    (destruct (timers a) as [|t q] eqn:Hta; [by rewrite ?Hta|]); simpl.
  - by apply StronglySorted_inv in Hq as [? _].
  - by apply Forall_cons in Ht as [_ ?].
  - apply Forall_cons in Ht as [Ht _]. apply Forall_app. split; [done|].
    apply Forall_fmap. by apply Forall_true.
Qed.

Lemma consistent_startImageWrite b i d o a :
  consistent b a → consistent b (startImageWrite b i d o a).2.
Proof.
  intros [Hq Ht He Hs]. rewrite startImageWrite_arm. simpl.
  set (a0 := qDebug (DbgOptions o) (qDebug (DbgStarting i d) a)).
  destruct (arm_fields (sessions a) (stages b) a0) as (_ & _ & Hem & _ & _).
  split; simpl.
  - by apply arm_sorted.
  - apply (arm_owner _ _ a0 (λ n, n < S (sessions a))); [lia|].
    eapply Forall_impl; [exact Ht|]. simpl; lia.
  - rewrite Hem. eapply Forall_impl; [exact He|]. simpl; lia.
  - intros s Hlt. rewrite ofSession_eventual. unfold sessionSignals. simpl.
    rewrite Hem. destruct (decide (s = sessions a)) as [->|Hne].
    + rewrite arm_own.
      * rewrite ofSession_none, timersOf_none; simpl.
        -- rewrite <- stages_script. generalize (stages b).
           induction l as [|st l IH]; [done|].
           by rewrite fmap_cons, !bind_cons, IH.
        -- eapply Forall_impl; [exact Ht|]. simpl; lia.
        -- eapply Forall_impl; [exact He|]. simpl; lia.
      * apply stages_sorted.
      * done.
      * eapply Forall_impl; [exact Ht|]. simpl. intros u Hu Hu'. lia.
    + rewrite arm_other by done. rewrite <- (Hs s) by lia.
      by rewrite ofSession_eventual.
Qed.

Lemma consistent_perform b a c :
  consistent b a → consistent b (perform b a c).
Proof.
  destruct c; simpl.
  - by intros [].
  - apply consistent_startImageWrite.
  - apply consistent_processNextTimer.
  - by intros [].
  - by intros [].
Qed.

Lemma consistent_execute b calls a :
  consistent b a → consistent b (execute b calls a).
Proof.
  revert a. induction calls as [|c calls IH]; intros a Ha; [done|].
  apply IH. by apply consistent_perform.
Qed.

Lemma sessions_perform b a c : (sessions a ≤ sessions (perform b a c))%nat.
Proof.
  destruct c; simpl; try lia.
  - rewrite startImageWrite_arm. simpl. lia.
  - by rewrite sessions_processNextTimer.
Qed.

Lemma sessions_execute b calls a :
  (sessions a ≤ sessions (execute b calls a))%nat.
Proof.
  revert a. induction calls as [|c calls IH]; intros a; [done|].
  etrans; [apply (sessions_perform b a c)|apply IH].
Qed.

(** The event loop drains the queue: everything armed gets emitted. *)
Lemma runEventLoop_drains a :
  timers (runEventLoop a) = [] ∧
  emitted (runEventLoop a) = eventual a ∧
  sessions (runEventLoop a) = sessions a.
Proof.
  unfold runEventLoop. remember (length (timers a)) as n eqn:Hn.
  revert a Hn. induction n as [|n IH]; intros a Hn.
  - simpl. destruct (timers a) eqn:Hq; [|done].
    unfold eventual. rewrite Hq. simpl. by rewrite app_nil_r.
  - rewrite Nat.iter_succ_r.
    rewrite <- eventual_processNextTimer, <- (sessions_processNextTimer a).
    apply IH. unfold processNextTimer.
    destruct (timers a) as [|t q]; simpl in *; lia.
Qed.

Lemma sessionSignals_runEventLoop s a :
  sessionSignals s (runEventLoop a) = ofSession s (eventual a).
Proof.
  unfold sessionSignals. by destruct (runEventLoop_drains a) as (_ & -> & _).
Qed.

(** At any moment a started session has received a prefix of the script. *)
Lemma consistent_prefix b a s :
  consistent b a → s < sessions a → sessionSignals s a `prefix_of` script b.
Proof.
  intros Ha Hs. rewrite <- (cons_script b a Ha s Hs), ofSession_eventual.
  by apply prefix_app_r.
Qed.

(** Left to the event loop, it receives all of it. *)
Lemma consistent_complete b a s :
  consistent b a → s < sessions a →
  sessionSignals s (runEventLoop a) = script b.
Proof.
  intros Ha Hs. rewrite sessionSignals_runEventLoop. by apply cons_script.
Qed.
End Invariant.

Section Runs.
Implicit Types (a : App) (b : Build).

Lemma execute_app b calls1 calls2 a :
  execute b (calls1 ++ calls2) a = execute b calls2 (execute b calls1 a).
Proof. apply foldl_app. Qed.

Lemma consistent_runEventLoop b a :
  consistent b a → consistent b (runEventLoop a).
Proof.
  unfold runEventLoop. generalize (length (timers a)).
  induction n as [|n IH]; intros Ha; [done|].
  simpl. by apply consistent_processNextTimer, IH.
Qed.

Lemma elem_of_ofSession (e : nat * Signal) es : e ∈ es → e.2 ∈ ofSession e.1 es.
Proof.
  intros He. unfold ofSession. apply list_elem_of_fmap_2.
  by apply list_elem_of_filter.
Qed.

(** Every signal ever emitted was emitted for a started session. *)
Lemma consistent_emitted b a e :
  consistent b a → e ∈ emitted a →
  e.1 < sessions a ∧ e.2 ∈ sessionSignals e.1 a.
Proof.
  intros Ha He. split.
  - pose proof (cons_emitted b a Ha) as Hall.
    rewrite Forall_forall in Hall. by apply Hall.
  - by apply elem_of_ofSession.
Qed.
End Runs.

(** ** Finite reasoning on the script *)

Lemma prefix_is_take {A} (l k : list A) :
  l `prefix_of` k → ∃ n, l = take n k.
Proof. intros [k' ->]. exists (length l). by rewrite take_app_length. Qed.

(** Reduce a statement about a prefix of the script to its finitely many
    instances. *)
Ltac script_prefixes H :=
  let n := fresh "n" in
  apply prefix_is_take in H as [n H];
  match type of H with
  | _ = take _ (script ?b) => destruct b
  end;
  do 6 (try (destruct n as [|n]; simpl in H)); subst.

Ltac elems H :=
  repeat (apply elem_of_cons in H as [H|H]; [subst|]);
  try (by apply elem_of_nil in H).

Definition terminals (l : list Signal) : list Signal :=
  filter (λ sig, isTerminal sig = true) l.

Definition scriptPercentages (b : Build) : list Z :=
  match b with
  | SingleFile => [25; 75; 90; 100]%Z
  | SplitSources => [25; 75; 100]%Z
  end.

Section ScriptFacts.
Variables (b : Build) (l : list Signal).
Hypothesis Hl : l `prefix_of` script b.

Lemma prefix_percentages :
  omap percentageOf l `prefix_of` scriptPercentages b.
Proof using Hl.
  destruct Hl as [k Hk].
  exists (omap percentageOf k).
  rewrite <- omap_app, <- Hk. by destruct b.
Qed.

Lemma prefix_percentages_sorted : StronglySorted Z.le (omap percentageOf l).
Proof using Hl.
  script_prefixes Hl; simpl; repeat (constructor; try lia).
Qed.

Lemma prefix_percentages_bounded :
  Forall (λ pc, 0 ≤ pc ≤ 100)%Z (omap percentageOf l).
Proof using Hl.
  script_prefixes Hl; simpl; repeat (constructor; try lia).
Qed.

Lemma prefix_terminal_once : (length (terminals l) ≤ 1)%nat.
Proof using Hl. script_prefixes Hl; vm_compute; lia. Qed.

Lemma prefix_terminal_last sig :
  sig ∈ l → isTerminal sig = true → last l = Some sig.
Proof using Hl.
  intros Hin Hterm. script_prefixes Hl; elems Hin; done.
Qed.

Lemma prefix_no_failure sig :
  sig ∈ l → isTerminal sig = true → sig = writeCompleted true EmptyString.
Proof using Hl.
  intros Hin Hterm. script_prefixes Hl; elems Hin; done.
Qed.
End ScriptFacts.

Lemma script_terminal b :
  length (terminals (script b)) = 1 ∧
  last (script b) = Some (writeCompleted true EmptyString) ∧
  omap percentageOf (script b) = scriptPercentages b ∧
  last (scriptPercentages b) = Some 100%Z.
Proof. by destruct b. Qed.

(** ** One session in an arbitrary run *)

Section Session.
Variables (b : Build) (p : Platform) (t0 : Z).
Variables (pre : list Call).
Variables (imagePath drivePath : string) (options : gmap string QVariant).
Variables (post : list Call).

(** The process has run [pre]; then [startImageWrite] is called; then
    [post] happens.  The session under observation is the one this call
    started. *)
Let a0 : App := execute b pre (boot p t0).
Let s : nat := sessions a0.
Let a : App := execute b post (startImageWrite b imagePath drivePath options a0).2.

Lemma session_consistent : consistent b a.
Proof.
  apply consistent_execute, consistent_startImageWrite, consistent_execute,
    consistent_boot.
Qed.

Lemma session_started : s < sessions a.
Proof.
  unfold a, s. eapply Nat.lt_le_trans; [|apply sessions_execute].
  rewrite startImageWrite_arm. simpl. lia.
Qed.

Lemma session_prefix : sessionSignals s a `prefix_of` script b.
Proof. apply consistent_prefix; [apply session_consistent|apply session_started]. Qed.

Lemma session_complete : sessionSignals s (runEventLoop a) = script b.
Proof. apply consistent_complete; [apply session_consistent|apply session_started]. Qed.

(** The same for any continuation of the run. *)
Lemma session_complete_gen (post' : list Call) :
  sessionSignals s
    (runEventLoop
       (execute b post' (startImageWrite b imagePath drivePath options a0).2))
  = script b.
Proof.
  apply consistent_complete.
  - apply consistent_execute, consistent_startImageWrite, consistent_execute,
      consistent_boot.
  - unfold s. eapply Nat.lt_le_trans; [|apply sessions_execute].
    rewrite startImageWrite_arm. simpl. lia.
Qed.

Lemma session_complete_at_start :
  sessionSignals s
    (runEventLoop (startImageWrite b imagePath drivePath options a0).2)
  = script b.
Proof. apply (session_complete_gen []). Qed.

Lemma session_no_failure_gen (post' : list Call) s' msg :
  (s', writeCompleted false msg)
  ∉ emitted (runEventLoop
               (execute b post' (startImageWrite b imagePath drivePath options a0).2)).
Proof.
  set (a' := runEventLoop _). intros Hin.
  assert (consistent b a') as Ha'.
  { apply consistent_runEventLoop, consistent_execute,
      consistent_startImageWrite, consistent_execute, consistent_boot. }
  destruct (consistent_emitted b a' _ Ha' Hin) as [Hs' Hsig]. simpl in *.
  pose proof (consistent_prefix b a' s' Ha' Hs') as Hpre.
  by pose proof (prefix_no_failure b _ Hpre _ Hsig eq_refl).
Qed.

(** C1 (as amended).  The percentages delivered to a session through
    [progressUpdated] are, at every moment of every run, the first few of
    the constants 25, 75, 90, 100 (25, 75, 100 in the split sources) in
    that order, hence non-decreasing and within 0..100; once the event
    loop has served the session's timers they are exactly those
    constants.  They are literals of [startImageWrite], not computed from
    a byte count. *)
Theorem C1_progress_percentages_fixed :
  sessionPercentages s a `prefix_of` scriptPercentages b ∧
  StronglySorted Z.le (sessionPercentages s a) ∧
  Forall (λ pc, 0 ≤ pc ≤ 100)%Z (sessionPercentages s a) ∧
  sessionPercentages s (runEventLoop a) = scriptPercentages b.
Proof.
  pose proof session_prefix as Hpre. unfold sessionPercentages.
  repeat split.
  - by apply prefix_percentages.
  - by eapply prefix_percentages_sorted.
  - by eapply prefix_percentages_bounded.
  - rewrite session_complete. apply script_terminal.
Qed.

(** C2.  In every write session [writeCompleted] is emitted exactly
    once and is the last notification: at no moment has the session
    received more than one, a received one is the last signal received,
    and when the event loop has served the session's timers exactly one
    has been received, in last position. *)
Theorem C2_completion_once_and_last :
  (length (terminals (sessionSignals s a)) ≤ 1)%nat ∧
  (∀ sig, sig ∈ sessionSignals s a → isTerminal sig = true →
          last (sessionSignals s a) = Some sig) ∧
  length (terminals (sessionSignals s (runEventLoop a))) = 1 ∧
  last (sessionSignals s (runEventLoop a))
  = Some (writeCompleted true EmptyString).
Proof.
  pose proof session_prefix as Hpre. repeat split.
  - by eapply prefix_terminal_once.
  - intros sig. by eapply prefix_terminal_last.
  - rewrite session_complete. apply script_terminal.
  - rewrite session_complete. apply script_terminal.
Qed.

(** C8.  Whatever the image path, the drive path and the options,
    [startImageWrite] returns [true], and the session it schedules ends
    with [writeCompleted(true, "")]; no signal of any session of the run
    is a [writeCompleted] with [success = false], before or after the
    event loop has drained. *)
Theorem C8_start_never_fails :
  (startImageWrite b imagePath drivePath options a0).1 = true ∧
  last (sessionSignals s (runEventLoop a))
  = Some (writeCompleted true EmptyString) ∧
  (∀ s' msg, (s', writeCompleted false msg) ∉ emitted a) ∧
  (∀ s' msg, (s', writeCompleted false msg) ∉ emitted (runEventLoop a)).
Proof.
  repeat split.
  - by rewrite startImageWrite_arm.
  - rewrite session_complete. apply script_terminal.
  - intros s' msg Hin.
    destruct (consistent_emitted b a _ session_consistent Hin) as [Hs' Hsig].
    simpl in *.
    pose proof (consistent_prefix b a s' session_consistent Hs') as Hpre.
    by pose proof (prefix_no_failure b _ Hpre _ Hsig eq_refl).
  - intros s' msg. apply session_no_failure_gen.
Qed.

(** C3 (as amended).  [startImageWrite] looks neither at the size of
    the image nor at the capacity of the drive: when the image is larger
    than the drive the call still returns [true], a session is created
    with its timers armed, and the session runs to
    [writeCompleted(true, "")]. *)
Theorem C3_oversized_image_still_written (imageBytes : Z) (drive : DriveInfo) :
  files (platform a0) !! imagePath = Some imageBytes →
  drive ∈ (enumerateRemovableDrives a0).1 →
  devicePath drive = drivePath →
  (size drive < imageBytes)%Z →
  let r := startImageWrite b imagePath drivePath options a0 in
  r.1 = true ∧
  sessions r.2 = S (sessions a0) ∧
  timersOf s (timers r.2) ≠ [] ∧
  sessionSignals s (runEventLoop a) = script b.
Proof.
  intros _ _ _ _. repeat split.
  - by rewrite startImageWrite_arm.
  - by rewrite startImageWrite_arm.
  - pose proof (session_complete_at_start) as H. intros Hnone. revert H.
    rewrite sessionSignals_runEventLoop, ofSession_eventual, Hnone.
    rewrite startImageWrite_arm. unfold sessionSignals. simpl.
    destruct (arm_fields (sessions a0) (stages b)
                (qDebug (DbgOptions options)
                   (qDebug (DbgStarting imagePath drivePath) a0)))
      as (_ & _ & -> & _ & _).
    simpl. rewrite ofSession_none.
    + by destruct b.
    + pose proof (cons_emitted b a0 (consistent_execute b pre _ (consistent_boot b p t0))) as He.
      eapply Forall_impl; [exact He|]. simpl. unfold s. lia.
  - apply session_complete.
Qed.

(** C6.  A 4 GiB image, a drive of 16,000,000,000 bytes, no advanced
    option switched on: the call returns [true], the session ends with
    the success notification and the last percentage reported is 100. *)
Theorem C6_four_gib_image_succeeds (drive : DriveInfo) :
  files (platform a0) !! imagePath = Some 4294967296%Z →
  drive ∈ (enumerateRemovableDrives a0).1 →
  size drive = 16000000000%Z →
  devicePath drive = drivePath →
  (∀ k v, options !! k = Some v → v = QVBool false) →
  (startImageWrite b imagePath drivePath options a0).1 = true ∧
  last (sessionSignals s (runEventLoop a))
  = Some (writeCompleted true EmptyString) ∧
  last (sessionPercentages s (runEventLoop a)) = Some 100%Z.
Proof.
  intros _ _ _ _ _. unfold sessionPercentages. rewrite session_complete.
  split; [by rewrite startImageWrite_arm|].
  destruct (script_terminal b) as (_ & ? & -> & ?). done.
Qed.

End Session.

(** ** Two sessions on one drive *)

Section SameDrive.
Variables (b : Build) (p : Platform) (t0 : Z).
Variables (pre mid post : list Call).
Variables (image1 image2 drivePath : string).
Variables (options1 options2 : gmap string QVariant).

Let a0 : App := execute b pre (boot p t0).
Let r1 := startImageWrite b image1 drivePath options1 a0.
Let a1 : App := execute b mid r1.2.
Let r2 := startImageWrite b image2 drivePath options2 a1.
Let a2 : App := runEventLoop (execute b post r2.2).

(** C5 (as amended).  [startImageWrite] keeps no record of the drives
    being written: a second call against the same drive path, made at
    any moment after the first (in particular while the first session is
    still running), returns [true] like the first; the two calls start
    two distinct sessions and each of them runs to
    [writeCompleted(true, "")]. *)
Theorem C5_no_device_exclusivity :
  r1.1 = true ∧ r2.1 = true ∧
  sessions a0 ≠ sessions a1 ∧
  sessionSignals (sessions a0) a2 = script b ∧
  sessionSignals (sessions a1) a2 = script b.
Proof.
  repeat split.
  - unfold r1. by rewrite startImageWrite_arm.
  - unfold r2. by rewrite startImageWrite_arm.
  - pose proof (session_started b p t0 pre image1 drivePath options1 mid).
    fold a0 r1 a1 in H. lia.
  - unfold a2, r2, a1.
    change (execute b post (startImageWrite b image2 drivePath options2
                              (execute b mid r1.2)).2)
      with (execute b (CallStartImageWrite image2 drivePath options2 :: post)
              (execute b mid r1.2)).
    rewrite <- execute_app. apply session_complete_gen.
  - unfold a2, r2, a1, r1, a0.
    change (startImageWrite b image1 drivePath options1
              (execute b pre (boot p t0))).2
      with (execute b [CallStartImageWrite image1 drivePath options1]
              (execute b pre (boot p t0))).
    rewrite <- !execute_app. apply session_complete_gen.
Qed.
End SameDrive.

(** ** Drive enumeration *)

(** C7 (as amended).  Every [DriveInfo] returned by
    [enumerateRemovableDrives] has [isRemovable] set; the list is not
    filtered from the machine's devices but is the same non-empty list
    whatever the state of the process and of the machine, so the call
    neither fails nor returns an empty list. *)
Theorem C7_enumeration_all_removable (a : App) :
  Forall (λ d, isRemovable d = true) (enumerateRemovableDrives a).1 ∧
  (enumerateRemovableDrives a).1 ≠ [] ∧
  (∀ a' : App, (enumerateRemovableDrives a').1 = (enumerateRemovableDrives a).1).
Proof.
  split; [|split].
  - unfold enumerateRemovableDrives. simpl. by repeat constructor.
  - done.
  - done.
Qed.

(** C9.  [enumerateRemovableDrives] returns, in every state, the same
    two drives: PhysicalDrive1 of 16,000,000,000 bytes and PhysicalDrive2
    of 32,000,000,000 bytes, both removable; two calls in arbitrary states
    agree, and the call changes nothing but the debug output. *)
Theorem C9_enumeration_constant (a a' : App) :
  (enumerateRemovableDrives a).1
  = [mkDriveInfo "\\.\PhysicalDrive1" "E:" "SanDisk Cruzer Blade (16 GB)"
                 16000000000 true;
     mkDriveInfo "\\.\PhysicalDrive2" "F:" "Kingston DataTraveler (32 GB)"
                 32000000000 true] ∧
  (enumerateRemovableDrives a).1 = (enumerateRemovableDrives a').1 ∧
  (enumerateRemovableDrives (enumerateRemovableDrives a).2).1
  = (enumerateRemovableDrives a).1 ∧
  (enumerateRemovableDrives a).2 = qDebug DbgEnumerated a.
Proof. done. Qed.

(** ** The window in an arbitrary run *)

Definition driveItems : list ComboItem :=
  [mkItem (Literal "Select a USB Drive...") QVInvalid;
   mkItem (DriveLabel "E:" "SanDisk Cruzer Blade (16 GB)" 16000000000)
          (QVString "\\.\PhysicalDrive1");
   mkItem (DriveLabel "F:" "Kingston DataTraveler (32 GB)" 32000000000)
          (QVString "\\.\PhysicalDrive2")].

(** The drive list holds the prompt and the two drives, and one of the
    three is current. *)
Definition comboReady (w : InfernoWindow) : Prop :=
  items (driveComboBox w) = driveItems ∧
  (0 ≤ currentIndex (driveComboBox w) < 3)%Z.

Section Window.
Implicit Types (w : InfernoWindow) (b : Build).

Lemma comboReady_new b p t0 : comboReady (newInfernoWindow b p t0).
Proof. destruct b; split; vm_compute; done. Qed.

Lemma driveComboBox_deliver w sig :
  driveComboBox (deliver w sig) = driveComboBox w.
Proof. destruct sig as [pc msg|[] err]; done. Qed.

Lemma driveComboBox_delivered (sigs : list Signal) w :
  driveComboBox (foldl deliver w sigs) = driveComboBox w.
Proof.
  revert w. induction sigs as [|sig sigs IH]; intros w; [done|].
  simpl. by rewrite IH, driveComboBox_deliver.
Qed.

Lemma driveComboBox_windowTurn w :
  driveComboBox (windowTurn w) = driveComboBox w.
Proof.
  unfold windowTurn. destruct (timers (diskUtility w)) as [|t q]; [done|].
  by rewrite driveComboBox_delivered.
Qed.

Lemma driveComboBox_startBurningProcess b reply w :
  driveComboBox (startBurningProcess b reply w) = driveComboBox w.
Proof.
  unfold startBurningProcess.
  destruct (currentIndex (driveComboBox w) =? 0)%Z; [done|].
  case_bool_decide; [done|]. destruct reply; [|done].
  rewrite startImageWrite_arm. done.
Qed.

Lemma comboReady_react b w e : comboReady w → comboReady (react b w e).
Proof.
  intros [Hitems Hidx]. unfold comboReady.
  destruct e; simpl.
  - unfold selectDiskImage. by case_bool_decide.
  - destruct (startButton w); [|done].
    by rewrite driveComboBox_startBurningProcess.
  - by destruct checked.
  - by destruct (advancedGroupVisible w).
  - unfold comboActivate. rewrite Hitems.
    destruct (comboEnabled (driveComboBox w)); simpl; [|done].
    case_bool_decide; simpl in *; [|done]. split; [done|lia].
  - by rewrite driveComboBox_windowTurn.
  - done.
  - done.
Qed.

Lemma comboReady_windowRun b events p t0 :
  comboReady (windowRun b events p t0).
Proof.
  unfold windowRun. generalize (comboReady_new b p t0).
  generalize (newInfernoWindow b p t0).
  induction events as [|e events IH]; intros w Hw; [done|].
  simpl. by apply IH, comboReady_react.
Qed.

(** With the drive list in place, a current index other than 0 selects
    one of the enumerated drives, and the data of the current item is its
    device path. *)
Lemma comboReady_drive w :
  comboReady w → (currentIndex (driveComboBox w) ≠ 0)%Z →
  (0 < currentIndex (driveComboBox w))%Z ∧
  ∃ drive, drive ∈ (enumerateRemovableDrives (diskUtility w)).1 ∧
           toString (currentData (driveComboBox w)) = devicePath drive.
Proof.
  intros [Hitems Hidx] Hne. split; [lia|].
  unfold currentData, currentItem. rewrite Hitems.
  assert (currentIndex (driveComboBox w) = 1 ∨
          currentIndex (driveComboBox w) = 2)%Z as [-> | ->] by lia.
  - exists drive1. split; [|done]. simpl. apply elem_of_cons. by left.
  - exists drive2. split; [|done]. simpl. apply elem_of_cons. right.
    apply elem_of_cons. by left.
Qed.
End Window.

(** C10.  In every state the window can reach, [startBurningProcess]
    calls [startImageWrite] only if a drive is selected (current index
    above 0, which then designates an enumerated drive), the image label
    is not "No image selected." and the answer to the confirmation
    question is Yes.  If one of the three fails the back end is left
    exactly as it was: no timer armed, no session, no debug line.  If all
    three hold the call is made with the label, the device path of the
    selected drive and the options of the check boxes. *)
Theorem C10_write_needs_drive_image_and_consent
    (b : Build) (p : Platform) (t0 : Z) (events : list UserEvent)
    (reply : StandardButton) :
  let w := windowRun b events p t0 in
  let w' := startBurningProcess b reply w in
  let ready := (0 < currentIndex (driveComboBox w))%Z ∧
               isoPathLabel w ≠ noImageSelected ∧
               reply = Yes in
  (diskUtility w' ≠ diskUtility w → ready) ∧
  (¬ ready → diskUtility w' = diskUtility w) ∧
  (ready →
     diskUtility w'
     = (startImageWrite b (isoPathLabel w)
          (toString (currentData (driveComboBox w))) (gatherOptions w)
          (diskUtility w)).2 ∧
     sessions (diskUtility w') = S (sessions (diskUtility w)) ∧
     ∃ drive, drive ∈ (enumerateRemovableDrives (diskUtility w)).1 ∧
              toString (currentData (driveComboBox w)) = devicePath drive).
Proof.
  intros w w' ready.
  pose proof (comboReady_windowRun b events p t0) as Hw. fold w in Hw.
  assert (ready ∨ (¬ ready ∧ diskUtility w' = diskUtility w)) as Hcases.
  { unfold ready, w', startBurningProcess.
    destruct (Z.eqb_spec (currentIndex (driveComboBox w)) 0) as [H0|H0].
    { right. split; [lia|done]. }
    case_bool_decide as Himg.
    { right. split; [tauto|done]. }
    destruct reply.
    - left. by destruct (comboReady_drive w Hw H0).
    - right. split; [|done]. intros (_ & _ & ?). done. }
  split; [|split].
  - intros Hchanged. destruct Hcases as [?|[_ ?]]; done.
  - intros Hnot. destruct Hcases as [?|[_ ?]]; done.
  - intros (Hidx & Himg & ->).
    assert (currentIndex (driveComboBox w) ≠ 0)%Z as H0 by lia.
    destruct (comboReady_drive w Hw H0) as [_ Hdrive].
    unfold w', startBurningProcess.
    destruct (Z.eqb_spec (currentIndex (driveComboBox w)) 0); [done|].
    case_bool_decide; [done|].
    simpl. rewrite !startImageWrite_arm. simpl.
    split; [done|]. split; [done|]. exact Hdrive.
Qed.

(** ** Concrete runs *)

(** A machine with the two drives attached and three image files: one of
    3 bytes, one of 4 GiB and one of 20,000,000,000 bytes. *)
Definition demoMachine : Platform :=
  mkPlatform true [drive1; drive2]
    (<["big.iso" := 20000000000%Z]>
       (<["live.iso" := 4294967296%Z]>
          (<["tiny.img" := 3%Z]> ∅))).

(** The device layer does not answer. *)
Definition deadMachine : Platform := mkPlatform false [] ∅.

(** The device layer answers; no removable drive is attached, only a
    fixed disk. *)
Definition bareMachine : Platform :=
  mkPlatform true
    [mkDriveInfo "\\.\PhysicalDrive0" "C:" "Internal SSD" 512000000000 false] ∅.

(** C1, refuted as stated.  The image is 3 bytes long, so the plan is 3
    bytes; the session reports 25, 75, 90, 100, and 25 is not
    [floor(100 * w / 3)] for any byte count [w] between 0 and 3. *)
Lemma C1_reports_not_derived_from_bytes :
  let a := runEventLoop
             (startImageWrite SingleFile "tiny.img" (devicePath drive1) ∅
                (boot demoMachine 0)).2 in
  files demoMachine !! "tiny.img" = Some 3%Z ∧
  sessionPercentages 0 a = [25; 75; 90; 100]%Z ∧
  ¬ ∃ bytesWritten : Z,
      (0 ≤ bytesWritten ≤ 3)%Z ∧ (25 = 100 * bytesWritten / 3)%Z.
Proof.
  split; [by vm_compute|]. split; [by vm_compute|].
  intros (w & Hw & Heq).
  assert (w = 0 ∨ w = 1 ∨ w = 2 ∨ w = 3)%Z as [-> | [-> | [-> | ->]]] by lia;
    vm_compute in Heq; discriminate.
Qed.

(** C3, refuted as stated.  A 20,000,000,000-byte image and the
    16,000,000,000-byte drive: the call reports success, a session exists
    with its four timers armed, and it runs to the success notification. *)
Lemma C3_oversized_image_accepted :
  let r := startImageWrite SingleFile "big.iso" (devicePath drive1) ∅
             (boot demoMachine 0) in
  files demoMachine !! "big.iso" = Some 20000000000%Z ∧
  size drive1 = 16000000000%Z ∧
  r.1 = true ∧
  sessions r.2 = 1 ∧
  length (timers r.2) = 4 ∧
  sessionSignals 0 (runEventLoop r.2) = script SingleFile.
Proof. by vm_compute. Qed.

(** The same in the split sources, through the general statement. *)
Lemma C3_oversized_image_witness :
  let r := startImageWrite SplitSources "big.iso" (devicePath drive1) ∅
             (boot demoMachine 0) in
  (size drive1 < 20000000000)%Z ∧
  r.1 = true ∧
  sessions r.2 = 1 ∧
  timersOf 0 (timers r.2) ≠ [] ∧
  sessionSignals 0 (runEventLoop r.2) = script SplitSources.
Proof.
  split; [by vm_compute|].
  apply (C3_oversized_image_still_written SplitSources demoMachine 0 []
           "big.iso" (devicePath drive1) ∅ [] 20000000000 drive1).
  - by vm_compute.
  - apply elem_of_cons. by left.
  - reflexivity.
  - by vm_compute.
Defined.

(** C5, refuted as stated.  The first session on PhysicalDrive1 has
    reported 25 and has timers pending when a second write to the same
    drive is started; the second call returns [true] as well, and both
    sessions run through all their reports to the success notification. *)
Lemma C5_second_write_to_busy_drive :
  let r1 := startImageWrite SingleFile "live.iso" (devicePath drive1) ∅
              (boot demoMachine 0) in
  let a1 := processNextTimer r1.2 in
  let r2 := startImageWrite SingleFile "tiny.img" (devicePath drive1) ∅ a1 in
  sessionPercentages 0 a1 = [25%Z] ∧
  length (timersOf 0 (timers a1)) = 3 ∧
  r1.1 = true ∧ r2.1 = true ∧
  sessionSignals 0 (runEventLoop r2.2) = script SingleFile ∧
  sessionSignals 1 (runEventLoop r2.2) = script SingleFile.
Proof. by vm_compute. Qed.

(** C7, refuted as stated.  With the device layer down the call returns
    what it returns on a machine without any removable drive, and that is
    not an empty list: a failure, an empty result and a populated result
    cannot be told apart. *)
Lemma C7_failure_looks_like_success :
  layerAvailable deadMachine = false ∧
  Forall (λ d, isRemovable d = false) (blockDevices bareMachine) ∧
  (enumerateRemovableDrives (boot deadMachine 0)).1
  = (enumerateRemovableDrives (boot bareMachine 0)).1 ∧
  (enumerateRemovableDrives (boot bareMachine 0)).1 ≠ [].
Proof.
  split; [done|]. split; [by repeat constructor|]. split; done.
Qed.

(** The 4 GiB image written from the freshly constructed window, whose
    check boxes are all clear. *)
Lemma C6_four_gib_image_witness :
  let o := gatherOptions (newInfernoWindow SingleFile demoMachine 0) in
  let a := runEventLoop
             (startImageWrite SingleFile "live.iso" (devicePath drive1) o
                (boot demoMachine 0)).2 in
  files demoMachine !! "live.iso" = Some 4294967296%Z ∧
  (startImageWrite SingleFile "live.iso" (devicePath drive1) o
     (boot demoMachine 0)).1 = true ∧
  last (sessionSignals 0 a) = Some (writeCompleted true EmptyString) ∧
  last (sessionPercentages 0 a) = Some 100%Z.
Proof.
  split; [by vm_compute|].
  apply (C6_four_gib_image_succeeds SingleFile demoMachine 0 [] "live.iso"
           (devicePath drive1)
           (gatherOptions (newInfernoWindow SingleFile demoMachine 0)) []
           drive1).
  - by vm_compute.
  - apply elem_of_cons. by left.
  - reflexivity.
  - reflexivity.
  - intros k v. unfold gatherOptions. simpl.
    rewrite !lookup_insert. repeat case_decide; naive_solver.
Defined.

(** The window does not prevent the second write either: choosing an
    image re-enables the start button while a session is running.  The
    progress bar then follows both sessions: it reaches 100 when the first
    one completes and falls back to 75 with the next report of the
    second. *)
Example window_starts_second_write :
  let w1 := windowRun SingleFile
              [ClickSelectImage "/home/user/live.iso"; ActivateDrive 1;
               ClickStart Yes; EventLoopTurn; EventLoopTurn]
              demoMachine 0 in
  let w2 := foldl (react SingleFile) w1
              [ClickSelectImage "/home/user/tiny.img"; ClickStart Yes;
               EventLoopTurn; EventLoopTurn; EventLoopTurn] in
  let w3 := react SingleFile w2 EventLoopTurn in
  startButton w1 = false ∧ progressBar w1 = 75%Z ∧
  sessions (diskUtility w2) = 2 ∧ progressBar w2 = 100%Z ∧
  progressBar w3 = 75%Z.
Proof. by vm_compute. Qed.

(** The guard on the drive is an equality test with 0.  It refuses what
    the comment above it calls no selection only because the drive list
    always has a current item: on a window whose list is still empty
    (current index -1, a state the constructor has left behind before any
    slot can run) the slot would go on and start a write to the empty
    device path. *)
Example guard_relies_on_current_item :
  let w := set_isoPathLabel "/home/user/live.iso"
             (setupWidgets (boot demoMachine 0)) in
  let w' := startBurningProcess SingleFile Yes w in
  currentIndex (driveComboBox w) = (-1)%Z ∧
  sessions (diskUtility w') = 1 ∧
  debugLog (diskUtility w')
  = [DbgStarting "/home/user/live.iso" EmptyString;
     DbgOptions (gatherOptions w)].
Proof. by vm_compute. Qed.

(** ** What a call to startImageWrite arms *)

Section Armed.
Implicit Types (a : App) (s : nat) (b : Build).

Lemma timerInsert_length (t : Timer) (q : list Timer) :
  length (timerInsert t q) = S (length q).
Proof.
  induction q as [|u q IH]; simpl; [done|].
  destruct (deadline t <? deadline u)%Z; simpl; by rewrite ?IH.
Qed.

Lemma arm_length s (sts : list (Z * list Signal)) a :
  length (timers (arm s sts a)) = length (timers a) + length sts.
Proof.
  revert a. induction sts as [|st sts IH]; intros a; simpl; [lia|].
  unfold arm in *. simpl. rewrite IH. simpl. rewrite timerInsert_length. lia.
Qed.

(** X1.  In every run, a call to [startImageWrite] arms for its session
    exactly one timer per stage, due at the time of the call plus the
    delay of the stage (1 s, 3 s, 5 s, 6 s; 1 s, 3 s, 5 s in the split
    sources); it leaves the timers of every other session in place, emits
    no signal itself, does not advance the clock and writes two debug
    lines, the paths and then the options. *)
Theorem start_arms_one_timer_per_stage
    b (p : Platform) (t0 : Z) (pre : list Call)
    (imagePath drivePath : string) (options : gmap string QVariant) :
  let a0 := execute b pre (boot p t0) in
  let s := sessions a0 in
  let r := startImageWrite b imagePath drivePath options a0 in
  timersOf s (timers r.2)
  = (λ st, mkTimer (now a0 + st.1) s st.2) <$> stages b ∧
  (∀ s', s' ≠ s → timersOf s' (timers r.2) = timersOf s' (timers a0)) ∧
  length (timers r.2) = length (timers a0) + length (stages b) ∧
  emitted r.2 = emitted a0 ∧
  now r.2 = now a0 ∧
  debugLog r.2
  = debugLog a0 ++ [DbgStarting imagePath drivePath; DbgOptions options].
Proof.
  intros a0 s r. subst s r.
  assert (consistent b a0) as [Hq Ht He Hs]
    by apply consistent_execute, consistent_boot.
  rewrite startImageWrite_arm. simpl.
  set (a00 := qDebug (DbgOptions options)
                (qDebug (DbgStarting imagePath drivePath) a0)).
  destruct (arm_fields (sessions a0) (stages b) a00)
    as (_ & Hnow & Hem & _ & Hlog).
  split; [|split; [|split; [|split; [|split]]]].
  - rewrite arm_own.
    + rewrite timersOf_none; [done|].
      eapply Forall_impl; [exact Ht|]. simpl. lia.
    + apply stages_sorted.
    + done.
    + eapply Forall_impl; [exact Ht|]. simpl. intros u Hu Hu'. lia.
  - intros s' Hne. by rewrite arm_other.
  - by rewrite arm_length.
  - by rewrite Hem.
  - by rewrite Hnow.
  - rewrite Hlog. simpl. by rewrite <- app_assoc.
Qed.
End Armed.

(** ** The signals do not depend on what is written *)

Section Independence.
Implicit Types (a : App) (b : Build) (c : Call).

Lemma perform_visible b a1 a2 c1 c2 :
  sameShape c1 c2 → visible a1 = visible a2 →
  visible (perform b a1 c1) = visible (perform b a2 c2).
Proof.
  intros Hc Ha. destruct a1 as [p1 n1 q1 e1 s1 l1], a2 as [p2 n2 q2 e2 s2 l2].
  unfold visible in Ha. simpl in Ha. simplify_eq.
  destruct c1, c2; simpl in Hc; try done; subst; try done.
  - by destruct b.
  - unfold perform, processNextTimer. simpl. by destruct q2.
Qed.

(** X2.  Two runs that make the same calls at the same times, whatever
    the image paths, drive paths and options passed to [startImageWrite]
    and whatever the machines they run on, emit the same signals in the
    same order, have the same timers armed and count the same sessions. *)
Theorem signals_independent_of_arguments
    b (p1 p2 : Platform) (t0 : Z) (calls1 calls2 : list Call) :
  Forall2 sameShape calls1 calls2 →
  visible (execute b calls1 (boot p1 t0))
  = visible (execute b calls2 (boot p2 t0)).
Proof.
  intros Hcalls. unfold execute.
  assert (visible (boot p1 t0) = visible (boot p2 t0)) as Hboot by done.
  revert Hboot. generalize (boot p1 t0) (boot p2 t0).
  induction Hcalls as [|c1 c2 calls1 calls2 Hc _ IH]; intros a1 a2 Ha; [done|].
  simpl. apply IH. by apply perform_visible.
Qed.
End Independence.

(** Two runs of the same shape, on different machines and with different
    arguments. *)
Lemma signals_independent_witness :
  emitted (execute SingleFile
             [CallStartImageWrite "live.iso" (devicePath drive1) ∅;
              TimerFires; Wait 500; TimerFires]
             (boot demoMachine 0))
  = emitted (execute SingleFile
               [CallStartImageWrite "big.iso" (devicePath drive2)
                  (<["persistence" := QVBool true]> ∅);
                TimerFires; Wait 500; TimerFires]
               (boot deadMachine 0)).
Proof.
  pose proof (signals_independent_of_arguments SingleFile demoMachine deadMachine 0
           [CallStartImageWrite "live.iso" (devicePath drive1) ∅;
            TimerFires; Wait 500; TimerFires]
           [CallStartImageWrite "big.iso" (devicePath drive2)
              (<["persistence" := QVBool true]> ∅);
            TimerFires; Wait 500; TimerFires]) as H.
  unfold visible in H.
  assert (Forall2 sameShape
           [CallStartImageWrite "live.iso" (devicePath drive1) ∅;
            TimerFires; Wait 500; TimerFires]
           [CallStartImageWrite "big.iso" (devicePath drive2)
              (<["persistence" := QVBool true]> ∅);
            TimerFires; Wait 500; TimerFires]) as Hshape
    by (repeat constructor).
  specialize (H Hshape). by simplify_eq.
Defined.

(** ** The last timer of the queue *)

(** No timer is due later than the final delay from now, and the timer at
    the back of the queue is the final timer of some session. *)
Definition finalDue (b : Build) (a : App) : Prop :=
  Forall (λ t, deadline t ≤ now a + finalDelay b)%Z (timers a) ∧
  ∀ t, last (timers a) = Some t → callback t = finalCallback b.

Section FinalTimer.
Implicit Types (a : App) (s : nat) (b : Build) (q : list Timer).

Lemma timerInsert_last (t : Timer) q :
  Forall (λ u, deadline u ≤ deadline t)%Z q → timerInsert t q = q ++ [t].
Proof.
  induction 1 as [|u q Hu _ IH]; simpl; [done|].
  destruct (Z.ltb_spec (deadline t) (deadline u)); [lia|]. by rewrite IH.
Qed.

Lemma arm_bound s (sts : list (Z * list Signal)) a (D : Z) :
  Forall (λ st, st.1 ≤ D)%Z sts →
  Forall (λ t, deadline t ≤ now a + D)%Z (timers a) →
  Forall (λ t, deadline t ≤ now a + D)%Z (timers (arm s sts a)).
Proof.
  intros Hsts. revert a. induction Hsts as [|st sts Hst _ IH]; intros a Ha; [done|].
  unfold arm in *. simpl. apply (IH (singleShot st.1 s st.2 a)). simpl.
  rewrite Forall_forall in Ha |- *.
  intros u [->|Hu]%timerInsert_elem; simpl; [lia|auto].
Qed.

Lemma stages_final b :
  ∃ init, stages b = init ++ [(finalDelay b, finalCallback b)] ∧
          Forall (λ st, st.1 ≤ finalDelay b)%Z init.
Proof.
  destruct b.
  - exists (take 3 (stages SingleFile)). split; [done|].
    simpl. repeat constructor; simpl; lia.
  - exists (take 2 (stages SplitSources)). split; [done|].
    simpl. repeat constructor; simpl; lia.
Qed.

Lemma finalDue_startImageWrite b i d o a :
  finalDue b a → finalDue b (startImageWrite b i d o a).2.
Proof.
  intros [Hbound _]. rewrite startImageWrite_arm.
  set (a00 := qDebug (DbgOptions o) (qDebug (DbgStarting i d) a)).
  destruct (stages_final b) as (init & -> & Hinit).
  unfold arm. rewrite foldl_snoc. fold (arm (sessions a) init a00).
  pose proof (arm_bound (sessions a) init a00 (finalDelay b) Hinit Hbound) as Hb.
  destruct (arm_fields (sessions a) init a00) as (_ & Hnow & _).
  unfold finalDue. simpl. rewrite Hnow. simpl.
  rewrite timerInsert_last by (eapply Forall_impl; [exact Hb|]; simpl; lia).
  split.
  - apply Forall_app. split; [done|]. repeat constructor. simpl. lia.
  - intros t. rewrite last_snoc. by intros [= <-].
Qed.

Lemma finalDue_processNextTimer b a :
  finalDue b a → finalDue b (processNextTimer a).
Proof.
  intros [Hbound Hlast]. unfold processNextTimer.
  destruct (timers a) as [|t q] eqn:Hq; [by rewrite <- Hq in *|].
  unfold finalDue. simpl. apply Forall_cons in Hbound as [_ Hbound]. split.
  - eapply Forall_impl; [exact Hbound|]. simpl. lia.
  - intros u Hu. apply Hlast. by destruct q.
Qed.

Lemma finalDue_perform b a c : finalDue b a → finalDue b (perform b a c).
Proof.
  destruct c; simpl.
  - done.
  - apply finalDue_startImageWrite.
  - apply finalDue_processNextTimer.
  - intros [Hbound Hlast]. split; [|done]. simpl.
    eapply Forall_impl; [exact Hbound|]. simpl. lia.
  - done.
Qed.

Lemma finalDue_execute b calls p t0 : finalDue b (execute b calls (boot p t0)).
Proof.
  unfold execute. assert (finalDue b (boot p t0)) as H by (split; [constructor|done]).
  revert H. generalize (boot p t0).
  induction calls as [|c calls IH]; intros a Ha; [done|].
  simpl. by apply IH, finalDue_perform.
Qed.

(** The signals of an armed timer are signals of the script. *)
Lemma timer_callback_in_script b a t sig :
  consistent b a → t ∈ timers a → sig ∈ callback t → sig ∈ script b.
Proof.
  intros Ha Ht Hsig.
  pose proof (cons_timers b a Ha) as Hall. rewrite Forall_forall in Hall.
  rewrite <- (cons_script b a Ha (owner t)) by auto.
  apply (elem_of_ofSession (owner t, sig)). unfold eventual.
  apply elem_of_app. right. unfold pendingEvents.
  apply list_elem_of_bind. exists t. split; [|done].
  by apply list_elem_of_fmap_2.
Qed.
End FinalTimer.

(** ** The window and its back end *)

(** The back end of the window is in a state that calls to the public
    members of [DiskUtility] and turns of the event loop produce. *)
Definition backed (b : Build) (p : Platform) (t0 : Z) (w : InfernoWindow) : Prop :=
  ∃ calls, diskUtility w = execute b calls (boot p t0).

Section WindowBackEnd.
Implicit Types (w : InfernoWindow) (b : Build) (e : UserEvent).

Lemma diskUtility_delivered (sigs : list Signal) w :
  diskUtility (foldl deliver w sigs) = diskUtility w.
Proof.
  revert w. induction sigs as [|sig sigs IH]; intros w; [done|].
  simpl. rewrite IH. by destruct sig as [pc msg|[] err].
Qed.

Lemma diskUtility_windowTurn w :
  diskUtility (windowTurn w) = processNextTimer (diskUtility w).
Proof.
  unfold windowTurn.
  destruct (timers (diskUtility w)) as [|t q] eqn:Hq.
  - unfold processNextTimer. by rewrite Hq.
  - by rewrite diskUtility_delivered.
Qed.

(** The slot either leaves the back end alone or makes one call to
    [startImageWrite]. *)
Lemma diskUtility_startBurningProcess b reply w :
  diskUtility (startBurningProcess b reply w) = diskUtility w ∨
  ∃ i d o, diskUtility (startBurningProcess b reply w)
           = perform b (diskUtility w) (CallStartImageWrite i d o).
Proof.
  unfold startBurningProcess.
  destruct (currentIndex (driveComboBox w) =? 0)%Z; [by left|].
  case_bool_decide; [by left|]. destruct reply; [|by left].
  right. eexists _, _, _. simpl. rewrite !startImageWrite_arm. done.
Qed.

Lemma diskUtility_react b w e :
  ∃ calls, diskUtility (react b w e) = execute b calls (diskUtility w).
Proof.
  destruct e; simpl.
  - exists []. unfold selectDiskImage. by case_bool_decide.
  - destruct (startButton w); [|by exists []].
    destruct (diskUtility_startBurningProcess b reply w) as [->|(i & d & o & ->)];
      [by exists []|by eexists [_]].
  - exists []. by destruct checked.
  - exists []. by destruct (advancedGroupVisible w).
  - by exists [].
  - exists [TimerFires]. apply diskUtility_windowTurn.
  - by exists [Wait ms].
  - by exists [PlatformChanges p].
Qed.

Lemma backed_new b p t0 : backed b p t0 (newInfernoWindow b p t0).
Proof. exists [CallEnumerate]. by destruct b. Qed.

Lemma backed_react b p t0 w e : backed b p t0 w → backed b p t0 (react b w e).
Proof.
  intros [calls Hcalls]. destruct (diskUtility_react b w e) as [calls' Hc].
  exists (calls ++ calls'). by rewrite Hc, execute_app, Hcalls.
Qed.

(** Induction over the runs of the window, for events that satisfy [Q]. *)
Lemma windowRun_invariant b p t0 (Q : UserEvent → Prop) (P : InfernoWindow → Prop) :
  P (newInfernoWindow b p t0) →
  (∀ w e, Q e → P w → P (react b w e)) →
  ∀ events, Forall Q events → P (windowRun b events p t0).
Proof.
  intros Hnew Hstep events Hevents. unfold windowRun.
  revert Hnew. generalize (newInfernoWindow b p t0).
  induction Hevents as [|e events He _ IH]; intros w Hw; [done|].
  simpl. apply IH. by apply Hstep.
Qed.

(** X3.  The window drives its back end only through
    [enumerateRemovableDrives], [startImageWrite] and the event loop: after
    any sequence of user events the state of the back end is the state
    some sequence of such calls produces from a fresh process.  Every
    statement about the runs of [DiskUtility] therefore holds for the
    sessions the window starts. *)
Theorem window_back_end_is_a_run
    b (p : Platform) (t0 : Z) (events : list UserEvent) :
  ∃ calls, diskUtility (windowRun b events p t0) = execute b calls (boot p t0).
Proof.
  apply (windowRun_invariant b p t0 (λ _, True) (backed b p t0)).
  - apply backed_new.
  - intros w e _. apply backed_react.
  - by apply Forall_true.
Qed.

Lemma backed_consistent b p t0 w : backed b p t0 w → consistent b (diskUtility w).
Proof. intros [calls ->]. apply consistent_execute, consistent_boot. Qed.

Lemma backed_finalDue b p t0 w : backed b p t0 w → finalDue b (diskUtility w).
Proof. intros [calls ->]. apply finalDue_execute. Qed.

Lemma comboEnabled_react b w e :
  comboEnabled (driveComboBox (react b w e)) = comboEnabled (driveComboBox w).
Proof.
  destruct e; simpl.
  - unfold selectDiskImage. by case_bool_decide.
  - destruct (startButton w); [|done].
    by rewrite driveComboBox_startBurningProcess.
  - by destruct checked.
  - by destruct (advancedGroupVisible w).
  - unfold comboActivate.
    by destruct (comboEnabled (driveComboBox w) && bool_decide _).
  - by rewrite driveComboBox_windowTurn.
  - done.
  - done.
Qed.

Lemma comboEnabled_windowRun b events p t0 :
  comboEnabled (driveComboBox (windowRun b events p t0)) = true.
Proof.
  apply (windowRun_invariant b p t0 (λ _, True)
           (λ w, comboEnabled (driveComboBox w) = true)).
  - by destruct b.
  - intros w e _ Hw. by rewrite comboEnabled_react.
  - by apply Forall_true.
Qed.
End WindowBackEnd.

(** X4.  The drive list and the enumeration stay aligned in every run of
    the window: activating entry [i + 1] makes it current, and the data
    and the label of the current item are then the device path and the
    letter, model and size of the [i]-th enumerated drive, which is what
    [startBurningProcess] passes on.  An index past the end of the list
    leaves the selection as it is, and entry 0, the prompt, carries no
    device path. *)
Theorem drive_entry_designates_enumerated_drive
    (b : Build) (p : Platform) (t0 : Z) (events : list UserEvent) :
  let w := windowRun b events p t0 in
  let drives := (enumerateRemovableDrives (diskUtility w)).1 in
  (∀ i drive, drives !! i = Some drive →
     let c := driveComboBox (react b w (ActivateDrive (S i))) in
     currentIndex c = Z.of_nat (S i) ∧
     toString (currentData c) = devicePath drive ∧
     currentText c = DriveLabel (driveLetter drive) (model drive) (size drive)) ∧
  (∀ k, length drives < k →
     driveComboBox (react b w (ActivateDrive k)) = driveComboBox w) ∧
  (let c := driveComboBox (react b w (ActivateDrive 0)) in
   currentIndex c = 0%Z ∧ currentData c = QVInvalid).
Proof.
  intros w drives.
  destruct (comboReady_windowRun b events p t0) as [Hitems _]. fold w in Hitems.
  pose proof (comboEnabled_windowRun b events p t0) as Hen. fold w in Hen.
  split; [|split].
  - intros i drive Hi. simpl. unfold comboActivate. rewrite Hitems, Hen.
    destruct i as [|[|i]]; simpl in Hi; simplify_eq; done.
  - intros k Hk. simpl in *. unfold comboActivate. rewrite Hitems, Hen. simpl.
    rewrite bool_decide_eq_false_2 by lia. done.
  - simpl. unfold comboActivate. by rewrite Hitems, Hen.
Qed.

Lemma gatherOptions_lookup (w : InfernoWindow) (k : string) :
  gatherOptions w !! k
  = (if decide (k = "persistence") then Some (QVBool (persistenceCheckBox w))
     else if decide (k = "multiBoot") then Some (QVBool (multiBootCheckBox w))
     else if decide (k = "win11Bypass") then Some (QVBool (win11BypassCheckBox w))
     else None).
Proof.
  unfold gatherOptions. rewrite !lookup_insert, lookup_empty.
  repeat case_decide; simplify_eq; done.
Qed.

(** X8.  Options set in the advanced panel stay in force when the panel
    is hidden again: in every run of the window, with the panel open, an
    image chosen and a drive selected, setting the three check boxes,
    hiding the panel and confirming the start makes [startBurningProcess]
    call [startImageWrite] with the image label, the data of the current
    drive entry and an options map that binds "persistence", "multiBoot"
    and "win11Bypass" to the states the boxes were given and holds no
    other key, as the two debug lines of the call show. *)
Theorem hidden_options_reach_startImageWrite
    (b : Build) (p : Platform) (t0 : Z) (events : list UserEvent)
    (persistence multiBoot win11Bypass : bool) :
  let w := windowRun b events p t0 in
  advancedGroupVisible w = true →
  startButton w = true →
  (0 < currentIndex (driveComboBox w))%Z →
  isoPathLabel w ≠ noImageSelected →
  let w' := foldl (react b) w
              [SetCheckBoxes persistence multiBoot win11Bypass;
               ToggleAdvanced false; ClickStart Yes] in
  advancedGroupVisible w' = false ∧
  sessions (diskUtility w') = S (sessions (diskUtility w)) ∧
  ∃ options,
    debugLog (diskUtility w')
    = debugLog (diskUtility w)
      ++ [DbgStarting (isoPathLabel w) (toString (currentData (driveComboBox w)));
          DbgOptions options] ∧
    ∀ k, options !! k
         = (if decide (k = "persistence") then Some (QVBool persistence)
            else if decide (k = "multiBoot") then Some (QVBool multiBoot)
            else if decide (k = "win11Bypass") then Some (QVBool win11Bypass)
            else None).
Proof.
  intros w Hvisible Hstart Hidx Himage w'.
  unfold w'. simpl. rewrite Hvisible. simpl. rewrite Hstart.
  unfold startBurningProcess. simpl.
  destruct (Z.eqb_spec (currentIndex (driveComboBox w)) 0) as [?|_]; [lia|].
  case_bool_decide; [done|].
  rewrite !startImageWrite_arm. simpl.
  split; [done|]. split; [done|].
  eexists. split.
  - match goal with
    | |- debugLog (arm ?s ?sts ?a) = _ =>
        destruct (arm_fields s sts a) as (_ & _ & _ & _ & ->)
    end.
    simpl. by rewrite <- app_assoc.
  - intros k.
    apply (gatherOptions_lookup
             (set_checkBoxes persistence multiBoot win11Bypass w) k).
Qed.

(** The panel is opened, the persistence box ticked, the panel hidden and
    the write confirmed. *)
Lemma hidden_options_witness :
  let w := windowRun SingleFile
             [ClickSelectImage "/home/user/live.iso"; ActivateDrive 2;
              ToggleAdvanced true]
             demoMachine 0 in
  let w' := foldl (react SingleFile) w
              [SetCheckBoxes true false false; ToggleAdvanced false;
               ClickStart Yes] in
  advancedGroupVisible w' = false ∧
  sessions (diskUtility w') = S (sessions (diskUtility w)) ∧
  ∃ options,
    debugLog (diskUtility w')
    = debugLog (diskUtility w)
      ++ [DbgStarting (isoPathLabel w) (toString (currentData (driveComboBox w)));
          DbgOptions options] ∧
    ∀ k, options !! k
         = (if decide (k = "persistence") then Some (QVBool true)
            else if decide (k = "multiBoot") then Some (QVBool false)
            else if decide (k = "win11Bypass") then Some (QVBool false)
            else None).
Proof.
  apply (hidden_options_reach_startImageWrite SingleFile demoMachine 0
           [ClickSelectImage "/home/user/live.iso"; ActivateDrive 2;
            ToggleAdvanced true] true false false); by vm_compute.
Defined.

(** ** What the window shows *)

Section WindowDisplay.
Implicit Types (w : InfernoWindow) (b : Build) (e : UserEvent).

(** The slot shows exactly one message box, never a critical one. *)
Lemma dialogs_startBurningProcess b reply w :
  ∃ d, dialogs (startBurningProcess b reply w) = dialogs w ++ [d] ∧
       isCritical d = false ∧
       (d = selectImageWarning → isoPathLabel w = noImageSelected).
Proof.
  unfold startBurningProcess.
  destruct (currentIndex (driveComboBox w) =? 0)%Z; [by eexists|].
  case_bool_decide; [by eexists|].
  destruct reply; [|by eexists].
  simpl. rewrite !startImageWrite_arm. simpl. by eexists.
Qed.

Lemma dialogs_deliver b w sig :
  sig ∈ script b →
  dialogs (deliver w sig) = dialogs w ∨
  dialogs (deliver w sig) = dialogs w ++ [successDialog].
Proof.
  intros Hsig. destruct sig as [pc msg|[] err]; simpl; [by left|by right|].
  destruct b; simpl in Hsig; elems Hsig; discriminate.
Qed.

Lemma dialogs_delivered b (P : Dialog → Prop) (sigs : list Signal) w :
  P successDialog →
  Forall (λ sig, sig ∈ script b) sigs →
  Forall P (dialogs w) → Forall P (dialogs (foldl deliver w sigs)).
Proof.
  intros HP Hsigs. revert w.
  induction Hsigs as [|sig sigs Hsig _ IH]; intros w Hw; [done|].
  simpl. apply IH.
  destruct (dialogs_deliver b w sig Hsig) as [-> | ->]; [done|].
  apply Forall_app. split; [done|]. by repeat constructor.
Qed.

Lemma dialogs_windowTurn b (P : Dialog → Prop) w :
  P successDialog →
  consistent b (diskUtility w) →
  Forall P (dialogs w) → Forall P (dialogs (windowTurn w)).
Proof.
  intros HP Ha Hw. unfold windowTurn.
  destruct (timers (diskUtility w)) as [|t q] eqn:Hq; [done|].
  apply (dialogs_delivered b); [done| |done].
  apply Forall_forall. intros sig Hsig.
  apply (timer_callback_in_script b (diskUtility w) t); [done| |done].
  rewrite Hq. apply elem_of_cons. by left.
Qed.

Lemma dialogs_react b (P : Dialog → Prop) w e :
  P successDialog →
  (∀ d, isCritical d = false →
        (d = selectImageWarning → isoPathLabel w = noImageSelected) → P d) →
  consistent b (diskUtility w) →
  Forall P (dialogs w) → Forall P (dialogs (react b w e)).
Proof.
  intros HP Hslot Ha Hw. destruct e; simpl; try done.
  - unfold selectDiskImage. by case_bool_decide.
  - destruct (startButton w); [|done].
    destruct (dialogs_startBurningProcess b reply w) as (d & -> & Hd & Hd').
    apply Forall_app. split; [done|]. repeat constructor. by apply Hslot.
  - by destruct checked.
  - by destruct (advancedGroupVisible w).
  - by apply (dialogs_windowTurn b).
Qed.

(** X5.  The two failure reports of the window are never shown: in no
    run does a critical message box appear, neither "Failed to start the
    image writing process." nor "The process failed: ...". *)
Theorem window_never_reports_failure
    b (p : Platform) (t0 : Z) (events : list UserEvent) :
  Forall (λ d, isCritical d = false) (dialogs (windowRun b events p t0)).
Proof.
  apply (windowRun_invariant b p t0 (λ _, True)
           (λ w, backed b p t0 w ∧ Forall (λ d, isCritical d = false) (dialogs w))).
  - split; [apply backed_new|]. by destruct b.
  - intros w e _ [Hb Hd]. split; [by apply backed_react|].
    apply dialogs_react; [done|auto| |done]. by eapply backed_consistent.
  - by apply Forall_true.
Qed.

Lemma isoPathLabel_delivered (sigs : list Signal) w :
  isoPathLabel (foldl deliver w sigs) = isoPathLabel w.
Proof.
  revert w. induction sigs as [|sig sigs IH]; intros w; [done|].
  simpl. rewrite IH. by destruct sig as [pc msg|[] err].
Qed.

Lemma isoPathLabel_windowTurn w : isoPathLabel (windowTurn w) = isoPathLabel w.
Proof.
  unfold windowTurn. destruct (timers (diskUtility w)); [done|].
  by rewrite isoPathLabel_delivered.
Qed.

Lemma isoPathLabel_startBurningProcess b reply w :
  isoPathLabel (startBurningProcess b reply w) = isoPathLabel w.
Proof.
  unfold startBurningProcess.
  destruct (currentIndex (driveComboBox w) =? 0)%Z; [done|].
  case_bool_decide; [done|]. destruct reply; [|done].
  simpl. by rewrite !startImageWrite_arm.
Qed.

(** On a turn of the event loop that runs the final timer of a session the
    window shows completion, whatever it showed before. *)
Lemma windowTurn_final b w t q :
  timers (diskUtility w) = t :: q → callback t = finalCallback b →
  progressBar (windowTurn w) = 100%Z ∧
  startButton (windowTurn w) = true ∧
  statusLabel (windowTurn w) = "SUCCESS: Bootable USB created successfully!" ∧
  last (dialogs (windowTurn w)) = Some successDialog.
Proof.
  intros Hq Ht. unfold windowTurn. rewrite Hq, Ht.
  destruct b; simpl; by rewrite last_snoc.
Qed.

Lemma windowDrain_shows_success b w :
  timers (diskUtility w) ≠ [] →
  (∀ t, last (timers (diskUtility w)) = Some t → callback t = finalCallback b) →
  progressBar (windowDrain w) = 100%Z ∧
  startButton (windowDrain w) = true ∧
  statusLabel (windowDrain w) = "SUCCESS: Bootable USB created successfully!" ∧
  last (dialogs (windowDrain w)) = Some successDialog ∧
  timers (diskUtility (windowDrain w)) = [].
Proof.
  unfold windowDrain. remember (timers (diskUtility w)) as q eqn:Hq.
  revert w Hq. induction q as [|t q IH]; intros w Hq Hne Hlast; [done|].
  symmetry in Hq. simpl length. rewrite Nat.iter_succ_r.
  destruct q as [|t' q'].
  - simpl. destruct (windowTurn_final b w t [] Hq (Hlast t eq_refl))
      as (? & ? & ? & ?).
    repeat split; try done.
    rewrite diskUtility_windowTurn. unfold processNextTimer. by rewrite Hq.
  - apply IH; [|done|done].
    rewrite diskUtility_windowTurn. unfold processNextTimer. by rewrite Hq.
Qed.

(** X6.  Whenever a write has been started and timers are still
    pending, the event loop left to itself brings the window to the
    completed display: the progress bar at 100, the start button enabled,
    the success text in the status label, the success message box shown
    last, no timer pending.  This holds however many sessions overlap and
    whatever the window showed in between. *)
Theorem pending_write_ends_in_success_display
    b (p : Platform) (t0 : Z) (events : list UserEvent) :
  let w := windowRun b events p t0 in
  timers (diskUtility w) ≠ [] →
  progressBar (windowDrain w) = 100%Z ∧
  startButton (windowDrain w) = true ∧
  statusLabel (windowDrain w) = "SUCCESS: Bootable USB created successfully!" ∧
  last (dialogs (windowDrain w)) = Some successDialog ∧
  timers (diskUtility (windowDrain w)) = [].
Proof.
  intros w Hne. apply (windowDrain_shows_success b); [done|].
  destruct (window_back_end_is_a_run b p t0 events) as [calls Hcalls].
  fold w in Hcalls. rewrite Hcalls. apply finalDue_execute.
Qed.
End WindowDisplay.

(** Two overlapping sessions of the split sources, five timers pending. *)
Lemma pending_write_witness :
  let w := windowRun SplitSources
             [ClickSelectImage "/home/user/live.iso"; ActivateDrive 2;
              SetCheckBoxes true false false; ClickStart Yes; EventLoopTurn;
              ClickSelectImage "/home/user/tiny.img"; ClickStart Yes]
             demoMachine 0 in
  length (timers (diskUtility w)) = 5 ∧
  progressBar (windowDrain w) = 100%Z ∧
  startButton (windowDrain w) = true ∧
  statusLabel (windowDrain w) = "SUCCESS: Bootable USB created successfully!" ∧
  last (dialogs (windowDrain w)) = Some successDialog ∧
  timers (diskUtility (windowDrain w)) = [].
Proof.
  split; [by vm_compute|].
  apply (pending_write_ends_in_success_display SplitSources demoMachine 0
           [ClickSelectImage "/home/user/live.iso"; ActivateDrive 2;
            SetCheckBoxes true false false; ClickStart Yes; EventLoopTurn;
            ClickSelectImage "/home/user/tiny.img"; ClickStart Yes]).
  by vm_compute.
Defined.

(** ** The start button *)

Section StartButton.
Implicit Types (w : InfernoWindow) (b : Build) (e : UserEvent).

Lemma no_session_no_timer b (a : App) :
  consistent b a → sessions a = 0 → timers a = [].
Proof.
  intros Ha H0. pose proof (cons_timers b a Ha) as Ht. rewrite H0 in Ht.
  destruct (timers a) as [|t q]; [done|].
  apply Forall_cons in Ht as [Ht _]. lia.
Qed.

Lemma startImageWrite_counts b (a : App) i d o :
  sessions (startImageWrite b i d o a).2 = S (sessions a) ∧
  length (timers (startImageWrite b i d o a).2)
  = length (timers a) + length (stages b).
Proof.
  rewrite startImageWrite_arm. simpl. split; [done|]. by rewrite arm_length.
Qed.

Lemma windowRun_backed b p t0 (events : list UserEvent) :
  backed b p t0 (windowRun b events p t0).
Proof. apply window_back_end_is_a_run. Qed.

(** X7.  Choosing an image enables the start button even while a write
    is in progress, and a click on it then starts a second session beside
    the running ones; every session, old and new, still runs to
    completion. *)
Theorem choosing_image_unlocks_second_write
    b (p : Platform) (t0 : Z) (events : list UserEvent) (chosen : string) :
  let w := windowRun b events p t0 in
  timers (diskUtility w) ≠ [] →
  chosen ≠ EmptyString →
  chosen ≠ noImageSelected →
  (0 < currentIndex (driveComboBox w))%Z →
  let w1 := react b w (ClickSelectImage chosen) in
  let w2 := react b w1 (ClickStart Yes) in
  startButton w1 = true ∧
  startButton w2 = false ∧
  sessions (diskUtility w2) = S (sessions (diskUtility w)) ∧
  length (timers (diskUtility w2))
  = length (timers (diskUtility w)) + length (stages b) ∧
  ∀ s : nat, (s ≤ sessions (diskUtility w))%nat →
             sessionSignals s (runEventLoop (diskUtility w2)) = script b.
Proof.
  intros w _ Hchosen Himage Hidx w1 w2.
  assert (w1 = set_statusLabel ("Image selected: " +:+ fileName chosen)
                 (set_startButton true (set_isoPathLabel chosen w))) as Hw1.
  { unfold w1. simpl. unfold selectDiskImage. by case_bool_decide. }
  assert (diskUtility w2
          = (startImageWrite b chosen (toString (currentData (driveComboBox w)))
               (gatherOptions w) (diskUtility w)).2
          ∧ startButton w2 = false) as [Hw2 Hstart].
  { unfold w2. rewrite Hw1. simpl. unfold startBurningProcess. simpl.
    destruct (Z.eqb_spec (currentIndex (driveComboBox w)) 0); [lia|].
    case_bool_decide; [done|]. rewrite !startImageWrite_arm. done. }
  split; [by rewrite Hw1|]. split; [done|].
  rewrite Hw2.
  destruct (startImageWrite_counts b (diskUtility w) chosen
              (toString (currentData (driveComboBox w))) (gatherOptions w))
    as (Hsess & Hlen).
  split; [done|]. split; [done|].
  intros s Hs. apply consistent_complete; [|lia].
  apply consistent_startImageWrite.
  eapply backed_consistent, windowRun_backed.
Qed.
(** The image label is the placeholder only as long as no image was
    chosen, and then the start button is disabled and no write was ever
    started; the image warning has not been shown. *)
Definition imageGuardIdle (w : InfernoWindow) : Prop :=
  (isoPathLabel w = noImageSelected →
   startButton w = false ∧ sessions (diskUtility w) = 0) ∧
  Forall (λ d, d ≠ selectImageWarning) (dialogs w).

Lemma imageGuardIdle_react b p t0 w e :
  e ≠ ClickSelectImage noImageSelected →
  backed b p t0 w → imageGuardIdle w → imageGuardIdle (react b w e).
Proof.
  intros He Hb [Hlabel Hdialogs].
  pose proof (backed_consistent b p t0 w Hb) as Ha.
  destruct e; simpl.
  - unfold selectDiskImage. case_bool_decide; [exact (conj Hlabel Hdialogs)|].
    split; [|done]. simpl. intros ->. done.
  - destruct (startButton w) eqn:Hstart;
      [|split; [intros Heq; split; [done|by apply Hlabel]|done]].
    assert (isoPathLabel w ≠ noImageSelected) as Himage.
    { intros Heq. by destruct (Hlabel Heq). }
    split.
    + by rewrite isoPathLabel_startBurningProcess.
    + destruct (dialogs_startBurningProcess b reply w) as (d & -> & _ & Hd).
      apply Forall_app. split; [done|]. repeat constructor. auto.
  - destruct checked; exact (conj Hlabel Hdialogs).
  - destruct (advancedGroupVisible w); exact (conj Hlabel Hdialogs).
  - exact (conj Hlabel Hdialogs).
  - split.
    + rewrite isoPathLabel_windowTurn. intros Heq.
      destruct (Hlabel Heq) as [Hstart Hnone].
      unfold windowTurn. by rewrite (no_session_no_timer b _ Ha Hnone).
    + by apply (dialogs_windowTurn b).
  - exact (conj Hlabel Hdialogs).
  - exact (conj Hlabel Hdialogs).
Qed.

(** X9.  Unless the file dialog hands back the placeholder text itself
    as a file name, the start button is enabled only once an image has
    been chosen: while the label reads "No image selected." the button is
    disabled and no session exists, so the check for a missing image in
    [startBurningProcess] never fires on a click and its warning is never
    shown. *)
Theorem image_guard_never_fires
    b (p : Platform) (t0 : Z) (events : list UserEvent) :
  Forall (λ e, e ≠ ClickSelectImage noImageSelected) events →
  let w := windowRun b events p t0 in
  (isoPathLabel w = noImageSelected →
   startButton w = false ∧ sessions (diskUtility w) = 0) ∧
  selectImageWarning ∉ dialogs w.
Proof.
  intros Hevents w.
  assert (backed b p t0 w ∧ imageGuardIdle w) as [_ [Hlabel Hdialogs]].
  { apply (windowRun_invariant b p t0
             (λ e, e ≠ ClickSelectImage noImageSelected)
             (λ w, backed b p t0 w ∧ imageGuardIdle w)); [| |done].
    - split; [apply backed_new|]. by destruct b.
    - intros w0 e He [Hb Hw0]. split; [by apply backed_react|].
      by apply (imageGuardIdle_react b p t0). }
  split; [done|]. rewrite Forall_forall in Hdialogs.
  intros Hin. by apply (Hdialogs _ Hin).
Qed.

(** Once an image is chosen, the start button is enabled or a timer is
    pending. *)
Definition startReachable (w : InfernoWindow) : Prop :=
  isoPathLabel w ≠ noImageSelected →
  startButton w = true ∨ timers (diskUtility w) ≠ [].

Lemma startReachable_react b p t0 w e :
  backed b p t0 w → startReachable w → startReachable (react b w e).
Proof.
  intros Hb Hw. unfold startReachable in *. destruct e; simpl.
  - unfold selectDiskImage. case_bool_decide; [exact Hw|]. by left.
  - destruct (startButton w) eqn:Hstart; [|rewrite Hstart; exact Hw].
    rewrite isoPathLabel_startBurningProcess. intros Himage.
    destruct (diskUtility_startBurningProcess b reply w)
      as [Hsame|(i & d & o & Hcall)].
    + unfold startBurningProcess in *.
      destruct (currentIndex (driveComboBox w) =? 0)%Z; [by left|].
      case_bool_decide; [done|]. destruct reply; [|by left].
      exfalso. revert Hsame. simpl. rewrite !startImageWrite_arm. simpl.
      intros Hsame. apply (f_equal sessions) in Hsame. simpl in Hsame. lia.
    + right. rewrite Hcall. simpl.
      destruct (startImageWrite_counts b (diskUtility w) i d o) as [_ Hlen].
      intros Hnil. rewrite Hnil in Hlen. simpl in Hlen. destruct b; simpl in Hlen; lia.
  - destruct checked; exact Hw.
  - destruct (advancedGroupVisible w); exact Hw.
  - exact Hw.
  - rewrite isoPathLabel_windowTurn. intros Himage.
    destruct (timers (diskUtility w)) as [|t [|t' q]] eqn:Hq.
    + left. unfold windowTurn. rewrite Hq.
      destruct (Hw Himage) as [?|?]; done.
    + left. destruct (backed_finalDue b p t0 w Hb) as [_ Hlast].
      rewrite Hq in Hlast.
      by destruct (windowTurn_final b w t [] Hq (Hlast t eq_refl)) as (_ & ? & _).
    + right. rewrite diskUtility_windowTurn. unfold processNextTimer.
      by rewrite Hq.
  - exact Hw.
  - exact Hw.
Qed.

(** X10.  The start button never stays disabled for good: in every run
    of the window in which an image has been chosen, the button is enabled
    once the event loop has run the pending timers. *)
Theorem start_button_comes_back
    b (p : Platform) (t0 : Z) (events : list UserEvent) :
  let w := windowRun b events p t0 in
  isoPathLabel w ≠ noImageSelected →
  startButton (windowDrain w) = true.
Proof.
  intros w Himage.
  assert (backed b p t0 w ∧ startReachable w) as [Hb Hw].
  { apply (windowRun_invariant b p t0 (λ _, True)
             (λ w, backed b p t0 w ∧ startReachable w)).
    - split; [apply backed_new|]. intros H. exfalso. apply H. by destruct b.
    - intros w0 e _ [Hb Hw0]. split; [by apply backed_react|].
      by apply (startReachable_react b p t0).
    - by apply Forall_true. }
  destruct (timers (diskUtility w)) as [|t q] eqn:Hq.
  - unfold windowDrain. rewrite Hq. simpl.
    destruct (Hw Himage) as [?|?]; done.
  - destruct (backed_finalDue b p t0 w Hb) as [_ Hlast].
    apply (windowDrain_shows_success b); [by rewrite Hq|done].
Qed.
End StartButton.

(** A second image chosen after the first report of a running write. *)
Lemma choosing_image_witness :
  let w := windowRun SingleFile
             [ClickSelectImage "/home/user/live.iso"; ActivateDrive 1;
              ClickStart Yes; EventLoopTurn]
             demoMachine 0 in
  let w1 := react SingleFile w (ClickSelectImage "/home/user/tiny.img") in
  let w2 := react SingleFile w1 (ClickStart Yes) in
  startButton w = false ∧
  startButton w1 = true ∧
  startButton w2 = false ∧
  sessions (diskUtility w2) = S (sessions (diskUtility w)) ∧
  length (timers (diskUtility w2))
  = length (timers (diskUtility w)) + length (stages SingleFile) ∧
  ∀ s : nat, (s ≤ sessions (diskUtility w))%nat →
             sessionSignals s (runEventLoop (diskUtility w2)) = script SingleFile.
Proof.
  split; [by vm_compute|].
  apply (choosing_image_unlocks_second_write SingleFile demoMachine 0
           [ClickSelectImage "/home/user/live.iso"; ActivateDrive 1;
            ClickStart Yes; EventLoopTurn] "/home/user/tiny.img");
    by vm_compute.
Defined.

(** Clicks on the disabled start button and a dismissed file dialog. *)
Lemma image_guard_witness :
  let w := windowRun SingleFile
             [ActivateDrive 1; ClickStart Yes; EventLoopTurn;
              ClickSelectImage EmptyString; ClickStart Yes]
             demoMachine 0 in
  (isoPathLabel w = noImageSelected →
   startButton w = false ∧ sessions (diskUtility w) = 0) ∧
  selectImageWarning ∉ dialogs w.
Proof.
  apply (image_guard_never_fires SingleFile demoMachine 0
           [ActivateDrive 1; ClickStart Yes; EventLoopTurn;
            ClickSelectImage EmptyString; ClickStart Yes]).
  repeat constructor; discriminate.
Defined.

(** The button is disabled during the write and enabled after it. *)
Lemma start_button_witness :
  let w := windowRun SplitSources
             [ClickSelectImage "/home/user/live.iso"; ActivateDrive 1;
              ClickStart Yes; EventLoopTurn]
             demoMachine 0 in
  startButton w = false ∧ startButton (windowDrain w) = true.
Proof.
  split; [by vm_compute|].
  apply (start_button_comes_back SplitSources demoMachine 0
           [ClickSelectImage "/home/user/live.iso"; ActivateDrive 1;
            ClickStart Yes; EventLoopTurn]).
  by vm_compute.
Defined.

(** ** The progress bar *)

Section ProgressBar.
Implicit Types (w : InfernoWindow) (b : Build) (e : UserEvent).

Lemma progressBar_deliver b w sig :
  sig ∈ script b →
  progressBar w ∈ 0%Z :: scriptPercentages b →
  progressBar (deliver w sig) ∈ 0%Z :: scriptPercentages b.
Proof.
  intros Hsig Hw.
  destruct b; simpl in Hsig; elems Hsig; simpl; rewrite !elem_of_cons; auto 10.
Qed.

Lemma progressBar_delivered b (sigs : list Signal) w :
  Forall (λ sig, sig ∈ script b) sigs →
  progressBar w ∈ 0%Z :: scriptPercentages b →
  progressBar (foldl deliver w sigs) ∈ 0%Z :: scriptPercentages b.
Proof.
  intros Hsigs. revert w.
  induction Hsigs as [|sig sigs Hsig _ IH]; intros w Hw; [done|].
  simpl. by apply IH, progressBar_deliver.
Qed.

Lemma progressBar_startBurningProcess b reply w :
  progressBar (startBurningProcess b reply w) = progressBar w ∨
  progressBar (startBurningProcess b reply w) = 0%Z.
Proof.
  unfold startBurningProcess.
  destruct (currentIndex (driveComboBox w) =? 0)%Z; [by left|].
  case_bool_decide; [by left|]. destruct reply; [|by left].
  right. simpl. by rewrite !startImageWrite_arm.
Qed.

(** X11.  The progress bar never shows anything but 0 and the
    percentages of the script (25, 75, 90, 100; 25, 75, 100 in the split
    sources), in any run of the window and however the sessions
    overlap. *)
Theorem progress_bar_shows_script_values
    b (p : Platform) (t0 : Z) (events : list UserEvent) :
  progressBar (windowRun b events p t0) ∈ 0%Z :: scriptPercentages b.
Proof.
  apply (windowRun_invariant b p t0 (λ _, True)
           (λ w, backed b p t0 w ∧ progressBar w ∈ 0%Z :: scriptPercentages b)).
  - split; [apply backed_new|]. destruct b; apply elem_of_cons; by left.
  - intros w e _ [Hb Hw]. split; [by apply backed_react|].
    destruct e; simpl; try done.
    + unfold selectDiskImage. by case_bool_decide.
    + destruct (startButton w); [|done].
      destruct (progressBar_startBurningProcess b reply w) as [-> | ->];
        [done|]. apply elem_of_cons. by left.
    + by destruct checked.
    + by destruct (advancedGroupVisible w).
    + unfold windowTurn.
      destruct (timers (diskUtility w)) as [|t q] eqn:Hq; [done|].
      apply progressBar_delivered; [|done].
      apply Forall_forall. intros sig Hsig.
      apply (timer_callback_in_script b (diskUtility w) t);
        [by eapply backed_consistent| |done].
      rewrite Hq. apply elem_of_cons. by left.
  - by apply Forall_true.
Qed.
End ProgressBar.
